(** * messor: the SQLite task store and the local threaded executor

    A shallow embedding of [src/messor/memory/sqlite_memory.py] and
    [src/messor/local_threaded_executor.py], and the properties of the
    store and of [run] that the specification states about them.

    Modelling decisions.
    - Every table has [task_id TEXT PRIMARY KEY], so a table is a finite
      map from the id to the other column: [gmap string _].  The order in
      which SQLite returns rows is not specified and nothing below depends
      on it.
    - The source never switches on [PRAGMA foreign_keys], so the
      [FOREIGN KEY] clauses are not enforced: a row of [task_result] or
      [task_error] may exist without a row of [task_definition].
    - Python values are restricted to the JSON fragment [pyval].
    - [json.dumps] / [json.loads] belong to the Python library: they are
      an interface ([JsonCodec]) with the round-trip law.  [json.dumps]
      can refuse a value of [pyval] (an integer too long to print):
      [json_refuses] gives the message of the exception it raises then.
    - A store function is the store it leaves when it returns.  The call
      of [update_task_statuses] inside [run], where the exception of
      [json.dumps] is caught, is [update_task_statuses_call].
    - The order in which futures complete is chosen by the scheduler; it
      is an oracle argument ([sched]) of [run].  Every invocation is
      assumed to return or raise; what it raises is an [Exception]
      ([Raises]) or not ([RaisesBase], as [SystemExit]).
    - [stop_all_when] is an external condition: its answers are given as
      a function of the number of times it has been called. *)

From stdpp Require Import gmap strings list fin_maps pretty.

Open Scope string_scope.
#[local] Set Warnings "-register-all".

(** ** Python values *)

(** The JSON-serialisable values: [None], booleans, integers, strings,
    lists, and dicts with string keys. *)
Inductive pyval : Type :=
  | PNone
  | PBool (b : bool)
  | PInt (z : Z)
  | PStr (s : string)
  | PList (l : list pyval)
  | PDict (d : list (string * pyval)).

(** Python's truth value testing, as used by [if result:] and [if error:]. *)
Definition truthy (v : pyval) : bool :=
  match v with
  | PNone => false
  | PBool b => b
  | PInt z => negb (Z.eqb z 0)
  | PStr s => negb (String.eqb s "")
  | PList l => match l with [] => false | _ :: _ => true end
  | PDict d => match d with [] => false | _ :: _ => true end
  end.

(** The exceptions that escape the modelled functions. *)
Inductive exn : Type :=
  | TypeError
  | ValueError
  | Exception (msg : string)
  | BaseException (msg : string).

(** ** The json library *)

(** [json_dumps v] is the text of [v]; [json_refuses v] is the message of
    the exception that [json.dumps(v)] raises, when it raises.  A string
    is never refused. *)
Class JsonCodec := {
  text : Type;
  json_dumps : pyval → text;
  json_loads : text → pyval;
  json_refuses : pyval → option string;
  json_loads_dumps : ∀ v, json_loads (json_dumps v) = v;
  json_accepts_str : ∀ s, json_refuses (PStr s) = None
}.

(** The number of decimal digits of an integer. *)
Definition decimal_digits (z : Z) : Z :=
  match z with
  | Z0 => 1
  | Zpos p | Zneg p => Z.of_nat (Decimal.nb_digits (Pos.to_uint p))
  end.

(** The refusal of CPython 3.11 and later: an integer of more than 4300
    digits, anywhere in the value, cannot be converted to a string. *)
Fixpoint int_str_error (v : pyval) : option string :=
  match v with
  | PInt z =>
      if (decimal_digits z <=? 4300)%Z then None
      else Some ("Exceeds the limit (4300 digits) for integer string conversion; "
                 +:+ "use sys.set_int_max_str_digits() to increase the limit")
  | PList l =>
      (fix first l :=
         match l with
         | [] => None
         | x :: l' =>
             match int_str_error x with Some msg => Some msg | None => first l' end
         end) l
  | PDict d =>
      (fix first d :=
         match d with
         | [] => None
         | (_, x) :: d' =>
             match int_str_error x with Some msg => Some msg | None => first d' end
         end) d
  | _ => None
  end.

(** The codec whose text is the value itself; used to run the model. *)
Definition plain_codec : JsonCodec :=
  {| text := pyval; json_dumps := λ v, v; json_loads := λ t, t;
     json_refuses := int_str_error;
     json_loads_dumps := λ v, eq_refl;
     json_accepts_str := λ s, eq_refl |}.

(** ** SQL statements on a table keyed by its primary key *)

Section sql.
Context {V : Type}.

(** [INSERT OR IGNORE INTO t (task_id, c) VALUES (k, v)] *)
Definition insert_or_ignore (k : string) (v : V) (t : gmap string V) : gmap string V :=
  match t !! k with
  | Some _ => t
  | None => <[k:=v]> t
  end.

(** [INSERT OR REPLACE INTO t (task_id, c) VALUES (k, v)] *)
Definition insert_or_replace (k : string) (v : V) (t : gmap string V) : gmap string V :=
  <[k:=v]> t.

(** [UPDATE t SET c = v WHERE task_id = k] *)
Definition update_where (k : string) (v : V) (t : gmap string V) : gmap string V :=
  match t !! k with
  | Some _ => <[k:=v]> t
  | None => t
  end.

(** [DELETE FROM t WHERE task_id = k] *)
Definition delete_where (k : string) (t : gmap string V) : gmap string V :=
  delete k t.
End sql.

(** ** SQLiteMemory *)

Section memory.
Context `{codec : JsonCodec}.

(** The four tables created by [_setup_db]. *)
Record store : Type := Store {
  task_definition : gmap string text;
  task_status : gmap string string;
  task_result : gmap string text;
  task_error : gmap string text
}.

(** A fresh database. *)
Definition setup_db : store := Store ∅ ∅ ∅ ∅.

(** An element of the list given to [update_task_statuses]:
    [(task_id, status, result, error)]; [PNone] is an omitted field. *)
Definition status_entry : Type := string * string * pyval * pyval.

Definition store_tasks (tasks : list (string * pyval)) (s : store) : store :=
  let defs := foldl (λ t '(task_id, task_data),
                       insert_or_ignore task_id (json_dumps task_data) t)
                    (task_definition s) tasks in
  let sts := foldl (λ t '(task_id, _), insert_or_ignore task_id "pending" t)
                   (task_status s) tasks in
  Store defs sts (task_result s) (task_error s).

(** The body of the [for] loop of [update_task_statuses], on the two
    tables it writes. *)
Definition record_outcome (re : gmap string text * gmap string text)
    (e : status_entry) : gmap string text * gmap string text :=
  let '(task_id, _, result, error) := e in
  let res := if truthy result
             then insert_or_replace task_id (json_dumps result) re.1
             else re.1 in
  let err := if truthy error
             then insert_or_replace task_id (json_dumps error) re.2
             else re.2 in
  (res, err).

Definition update_task_statuses (statuses : list status_entry) (s : store) : store :=
  let sts := foldl (λ t '(task_id, status, _, _), update_where task_id status t)
                   (task_status s) statuses in
  let re := foldl record_outcome (task_result s, task_error s) statuses in
  Store (task_definition s) sts re.1 re.2.

(** What the loop of [update_task_statuses] hands to [json.dumps] for an
    entry, the result before the error: the message of the exception for
    the first value that is refused. *)
Definition entry_refused (e : status_entry) : option string :=
  let '(_, _, result, error) := e in
  match (if truthy result then json_refuses result else None) with
  | Some msg => Some msg
  | None => if truthy error then json_refuses error else None
  end.

Fixpoint batch_refused (statuses : list status_entry) : option string :=
  match statuses with
  | [] => None
  | e :: statuses' =>
      match entry_refused e with
      | Some msg => Some msg
      | None => batch_refused statuses'
      end
  end.

(** A call of [update_task_statuses] with its exception: when
    [json.dumps] raises in the loop, [with self.conn] rolls back what the
    call has written, so the store is as before the call, and the
    exception (here its message) leaves the call. *)
Definition update_task_statuses_call (statuses : list status_entry) (s : store)
    : string + store :=
  match batch_refused statuses with
  | Some msg => inl msg
  | None => inr (update_task_statuses statuses s)
  end.

(** [cursor.fetchone()] is [None] when no row matches, and [None[0]]
    raises [TypeError]. *)
Definition get_task_status (task_id : string) (s : store) : exn + string :=
  match task_status s !! task_id with
  | Some status => inr status
  | None => inl TypeError
  end.

(** [SELECT task_id FROM task_status WHERE status = ?] *)
Definition select_status (status : string) (s : store) : list string :=
  (map_to_list (filter (λ row, row.2 = status) (task_status s))).*1.

Definition get_pending_tasks (s : store) : list string := select_status "pending" s.

Definition get_completed_tasks (s : store) : list string := select_status "completed" s.

(** The inner join of [task_status] and [task_error] on [task_id],
    restricted to the rows whose status is ['failed']. *)
Definition get_failed_tasks (s : store) : list (string * pyval) :=
  omap (λ row : string * string,
          if decide (row.2 = "failed")
          then (λ e, (row.1, json_loads e)) <$> task_error s !! row.1
          else None)
       (map_to_list (task_status s)).

Definition get_task_result (task_id : string) (s : store) : option pyval :=
  match task_result s !! task_id with
  | Some result => Some (json_loads result)
  | None => None
  end.

Definition clear (s : store) : store := Store ∅ ∅ ∅ ∅.

Definition clear_tasks (task_ids : list string) (s : store) : store :=
  foldl (λ s task_id,
           Store (delete_where task_id (task_definition s))
                 (delete_where task_id (task_status s))
                 (delete_where task_id (task_result s))
                 (delete_where task_id (task_error s)))
        s task_ids.

(** The dictionary returned by [dump_all]. *)
Record dump : Type := Dump {
  task_definitions : gmap string pyval;
  task_statuses : gmap string string;
  task_results : gmap string pyval;
  task_errors : gmap string pyval
}.

Definition dump_all (s : store) : dump :=
  Dump (json_loads <$> task_definition s)
       (task_status s)
       (json_loads <$> task_result s)
       (json_loads <$> task_error s).
End memory.

Arguments store {_}.

(** ** LocalThreadedExecutor *)

(** What calling a task does: it returns a value, or raises an exception
    [e] with [str(e) = msg]; [e] is an [Exception] ([Raises]) or is not
    one ([RaisesBase]: [SystemExit], [KeyboardInterrupt]). *)
Inductive outcome : Type :=
  | Returns (result : pyval)
  | Raises (msg : string)
  | RaisesBase (msg : string).

(** A task: [task.get_id()] and [task()]. *)
Record task : Type := Task {
  get_id : string;
  call : outcome
}.

(** What [run] does to the world outside the store, in order. *)
Inductive event : Type :=
  | Printed (line : string)
  | PoolCreated (max_workers : Z)
  | Submitted (task_id : string).

(** [as_completed]: every submitted future is yielded once, in the order
    of completion.  [sched] is the scheduler's choice: its head selects,
    among the futures still in flight, the one that finishes next. *)
Fixpoint as_completed_from {A : Type} (n : nat) (sched : list nat) (inflight : list A) : list A :=
  match n with
  | O => []
  | S n' =>
      let i := hd O sched `mod` length inflight in
      match inflight !! i with
      | Some f => f :: as_completed_from n' (tl sched) (delete i inflight)
      | None => []
      end
  end.

Definition as_completed {A : Type} (sched : list nat) (futures : list A) : list A :=
  as_completed_from (length futures) sched futures.

Section executor.
Context `{codec : JsonCodec}.

(** The fields of the executor.  [stop_all_when], when given, is called
    after each completion; its argument here is the number of calls
    made before. *)
Record executor : Type := Executor {
  tasks : list task;
  memory : store;
  max_concurrency : Z;
  stop_all_when : option (nat → bool);
  _stopped : bool
}.

Definition status_summary (mem : store) : list string :=
  let pending := get_pending_tasks mem in
  let completed := get_completed_tasks mem in
  let failed := get_failed_tasks mem in
  [ "Pending tasks: " +:+ pretty (length pending);
    "Completed tasks: " +:+ pretty (length completed);
    "Failed tasks: " +:+ pretty (length failed) ].

(** [_execute_task], run by a worker.  A future that the loop of [run]
    harvests finished before the loop could set [_stopped], so the flag
    it read is the one [run] started with. *)
Definition execute_task (stopped : bool) (t : task) : outcome :=
  if stopped
  then Raises "Execution was stopped by an external condition."
  else call t.

(** The [except Exception as e] branch: the failure is written; an
    exception of that write leaves [run]. *)
Definition record_failure (t : task) (e : string) (mem : store) : exn + store :=
  match update_task_statuses_call [(get_id t, "failed", PNone, PStr e)] mem with
  | inr mem' => inr mem'
  | inl e' => inl (Exception e')
  end.

(** The [try] / [except] of the loop body.  [future.result()] returns
    what the task returned or raises what it raised; the write of
    ['completed'] is inside the [try], so its exception is caught too;
    an exception that is not an [Exception] is not caught. *)
Definition record_completion (stopped : bool) (t : task) (mem : store) : exn + store :=
  match execute_task stopped t with
  | Returns result =>
      match update_task_statuses_call [(get_id t, "completed", result, PNone)] mem with
      | inr mem' => inr mem'
      | inl e => record_failure t e mem
      end
  | Raises e => record_failure t e mem
  | RaisesBase e => inl (BaseException e)
  end.

(** How the loop of [run] ends: the store, the flag [_stopped], what was
    printed, and the exception that left the loop, if one did. *)
Record loop_end : Type := LoopEnd {
  end_memory : store;
  end_stopped : bool;
  end_printed : list event;
  end_raised : option exn
}.

(** The loop [for future in as_completed(future_to_task)], from the
    [k]-th evaluation of the stop condition on. *)
Fixpoint harvest (stop : option (nat → bool)) (stopped : bool) (k : nat)
    (completed : list task) (mem : store) : loop_end :=
  match completed with
  | [] => LoopEnd mem stopped [] None
  | t :: rest =>
      match record_completion stopped t mem with
      | inl e => LoopEnd mem stopped [] (Some e)
      | inr mem' =>
          if match stop with Some cond => cond k | None => false end
          then LoopEnd mem' true
                 [Printed "Emergency stop condition met. Halting execution."] None
          else harvest stop stopped (S k) rest mem'
      end
  end.

Definition tasks_to_run (ex : executor) : list task :=
  let pending_task_ids : gset string := list_to_set (get_pending_tasks (memory ex)) in
  filter (λ t, get_id t ∈ pending_task_ids) (tasks ex).

(** [run].  When it returns: the executor afterwards and the events.
    When it raises: the exception, with the executor and the events at
    that point.  It raises the [ValueError] of [ThreadPoolExecutor] for
    [max_workers <= 0], and what leaves the loop; the summary is then not
    printed. *)
Definition run (sched : list nat) (ex : executor)
    : exn * (executor * list event) + executor * list event :=
  match tasks_to_run ex with
  | [] => inr (ex, [Printed "All tasks are already completed."])
  | to_run =>
      if decide (max_concurrency ex ≤ 0)%Z then inl (ValueError, (ex, []))
      else
        let h := harvest (stop_all_when ex) (_stopped ex) 0
                         (as_completed sched to_run) (memory ex) in
        let ex' := Executor (tasks ex) (end_memory h) (max_concurrency ex)
                            (stop_all_when ex) (end_stopped h) in
        match end_raised h with
        | Some e =>
            inl (e, (ex', PoolCreated (max_concurrency ex)
                          :: (Submitted ∘ get_id <$> to_run) ++ end_printed h))
        | None =>
            inr (ex', PoolCreated (max_concurrency ex)
                      :: (Submitted ∘ get_id <$> to_run)
                      ++ end_printed h ++ (Printed <$> status_summary (end_memory h)))
        end
  end.
End executor.

Arguments executor {_}.
Arguments loop_end {_}.

(** ** Vocabulary of the properties *)

Section vocabulary.
Context `{codec : JsonCodec}.

(** The id of an entry of [update_task_statuses]. *)
Definition entry_id (e : status_entry) : string := e.1.1.1.

(** A call of one of the four operations that write the store. *)
Inductive op : Type :=
  | StoreTasks (tasks : list (string * pyval))
  | UpdateTaskStatuses (statuses : list status_entry)
  | Clear
  | ClearTasks (task_ids : list string).

Definition apply_op (o : op) (s : store) : store :=
  match o with
  | StoreTasks tasks => store_tasks tasks s
  | UpdateTaskStatuses statuses => update_task_statuses statuses s
  | Clear => clear s
  | ClearTasks task_ids => clear_tasks task_ids s
  end.

Definition run_ops (ops : list op) (s : store) : store :=
  foldl (λ s o, apply_op o s) s ops.

Definition is_none (v : pyval) : bool :=
  match v with PNone => true | _ => false end.

(** An update of the kind [run] issues: one entry, for an id that is
    pending, which either completes it and gives no error or fails it
    and gives no result. *)
Definition executor_write (statuses : list status_entry) (s : store) : bool :=
  match statuses with
  | [(task_id, status, result, error)] =>
      bool_decide (task_status s !! task_id = Some "pending")
      && ((String.eqb status "completed" && is_none error)
          || (String.eqb status "failed" && is_none result))
  | _ => false
  end.

Definition lifecycle_op (o : op) (s : store) : bool :=
  match o with
  | UpdateTaskStatuses statuses => executor_write statuses s
  | _ => true
  end.

(** Every update of the sequence is an [executor_write] on the store
    it is applied to. *)
Fixpoint lifecycle (ops : list op) (s : store) : bool :=
  match ops with
  | [] => true
  | o :: ops' => lifecycle_op o s && lifecycle ops' (apply_op o s)
  end.

(** A stored result goes with status ['completed'], a stored error
    with status ['failed']. *)
Definition lifecycle_inv (s : store) : Prop :=
  ∀ id,
    (is_Some (task_result s !! id) → task_status s !! id = Some "completed")
    ∧ (is_Some (task_error s !! id) → task_status s !! id = Some "failed").

(** An id has a definition row exactly when it has a status row. *)
Definition paired (s : store) : Prop :=
  ∀ id, is_Some (task_definition s !! id) ↔ is_Some (task_status s !! id).

(** In how many of the three queries an id appears. *)
Definition query_count (id : string) (s : store) : nat :=
  (if decide (id ∈ get_pending_tasks s) then 1 else 0)
  + (if decide (id ∈ get_completed_tasks s) then 1 else 0)
  + (if decide (id ∈ (get_failed_tasks s).*1) then 1 else 0).

(** The number of rows of [task_status] with a given status. *)
Definition count_status (status : string) (s : store) : nat :=
  size (filter (λ row : string * string, row.2 = status) (task_status s)).

(** The number of rows of [task_status] with status ['failed'] whose id
    has a row in [task_error]. *)
Definition count_failed_with_error (s : store) : nat :=
  size (filter (λ row : string * string,
                  row.2 = "failed" ∧ is_Some (task_error s !! row.1))
               (task_status s)).

(** Whether the exception of the invocation leaves [run]. *)
Definition escapes (stopped : bool) (t : task) : bool :=
  match execute_task stopped t with
  | RaisesBase _ => true
  | _ => false
  end.

(** The store after the loop body for one completion: what
    [record_completion] leaves, also when it raises. *)
Definition recorded (stopped : bool) (t : task) (mem : store) : store :=
  match record_completion stopped t mem with
  | inr mem' => mem'
  | inl _ => mem
  end.

(** The entry that the loop body ends up writing for a completion, if
    it writes one: ['completed'] with the value returned, or ['failed']
    with the message of the exception of the task or of [json.dumps]. *)
Definition written (stopped : bool) (t : task) : option status_entry :=
  match execute_task stopped t with
  | Returns result =>
      match (if truthy result then json_refuses result else None) with
      | Some e => Some (get_id t, "failed", PNone, PStr e)
      | None => Some (get_id t, "completed", result, PNone)
      end
  | Raises e => Some (get_id t, "failed", PNone, PStr e)
  | RaisesBase _ => None
  end.

(** The completions that the loop of [run] processes: those up to and
    including the first one whose exception leaves the loop or after
    which the stop condition holds. *)
Fixpoint harvested (stop : option (nat → bool)) (stopped : bool) (k : nat)
    (completed : list task) : list task :=
  match completed with
  | [] => []
  | t :: rest =>
      t :: (if escapes stopped t then []
            else if match stop with Some cond => cond k | None => false end
                 then []
                 else harvested stop stopped (S k) rest)
  end.

(** The parts of what [run] gives: the executor and the events, whether
    it returned or raised, and the exception if it raised. *)
Definition run_executor (r : exn * (executor * list event) + executor * list event)
    : executor :=
  match r with
  | inl (_, (ex, _)) => ex
  | inr (ex, _) => ex
  end.

Definition run_events (r : exn * (executor * list event) + executor * list event)
    : list event :=
  match r with
  | inl (_, (_, events)) => events
  | inr (_, events) => events
  end.

Definition run_raised (r : exn * (executor * list event) + executor * list event)
    : option exn :=
  match r with
  | inl (e, _) => Some e
  | inr _ => None
  end.

(** The rows of an id in the four tables. *)
Definition record_of (id : string) (s : store)
    : option text * option string * option text * option text :=
  (task_definition s !! id, task_status s !! id, task_result s !! id, task_error s !! id).
End vocabulary.

(** ** Sample data, run with [plain_codec] *)

Definition ok_result : pyval := PDict [("ok", PBool true)].

Definition one_task : @store plain_codec :=
  store_tasks [("t1", PDict [("n", PInt 1)])] setup_db.

Definition completed_t1 : @store plain_codec :=
  update_task_statuses [("t1", "completed", ok_result, PNone)] one_task.

(** A run of the store as the executor drives it: [t1] completes, [t2]
    fails, then [t1] is cleared and inserted again. *)
Definition sample_ops : list op :=
  [ StoreTasks [("t1", PDict []); ("t2", PDict [])];
    UpdateTaskStatuses [("t1", "completed", ok_result, PNone)];
    UpdateTaskStatuses [("t2", "failed", PNone, PStr "boom")];
    ClearTasks ["t1"];
    StoreTasks [("t1", PDict [])] ].

(** A record that is completed and then failed by a second update. *)
Definition completed_then_failed : list op :=
  [ StoreTasks [("t1", PDict [])];
    UpdateTaskStatuses [("t1", "completed", ok_result, PNone)];
    UpdateTaskStatuses [("t1", "failed", PNone, PStr "boom")] ].

(** An executor started again on a store where its only task is
    completed. *)
Definition resumed : @executor plain_codec :=
  Executor [Task "t1" (Returns ok_result)] completed_t1 4 None false.

(** An executor whose only task raises an exception with an empty
    message, as [raise Exception()] does. *)
Definition silent_failure : @executor plain_codec :=
  Executor [Task "t1" (Raises "")] one_task 4 None false.

(** [t1] was failed by an update that gives no error; [t2] is pending. *)
Definition failed_without_error : @executor plain_codec :=
  Executor [Task "t2" (Returns ok_result)]
           (update_task_statuses [("t1", "failed", PNone, PNone)]
              (store_tasks [("t1", PDict []); ("t2", PDict [])] setup_db))
           4 None false.

(** Three pending tasks, the second of which raises. *)
Definition three_tasks : @executor plain_codec :=
  Executor [Task "t1" (Returns ok_result); Task "t2" (Raises "boom");
            Task "t3" (Returns (PInt 3))]
           (store_tasks [("t1", PDict []); ("t2", PDict []); ("t3", PDict [])] setup_db)
           2 None false.

(** Two pending tasks that raise, and a stop condition that holds after
    the first completion. *)
Definition stops_early : @executor plain_codec :=
  Executor [Task "t1" (Raises "boom"); Task "t2" (Raises "boom")]
           (store_tasks [("t1", PDict []); ("t2", PDict [])] setup_db)
           1 (Some (λ _, true)) false.

(** Five pending tasks [t1] .. [t5]; [t3] does [o], the others return
    [{"ok": true}]. *)
Definition five_tasks (o : outcome) : @executor plain_codec :=
  Executor [Task "t1" (Returns ok_result); Task "t2" (Returns ok_result);
            Task "t3" o; Task "t4" (Returns ok_result); Task "t5" (Returns ok_result)]
           (store_tasks [("t1", PDict []); ("t2", PDict []); ("t3", PDict []);
                         ("t4", PDict []); ("t5", PDict [])] setup_db)
           2 None false.

(** What [run] printed. *)
Definition printed_lines (events : list event) : list string :=
  omap (λ ev, match ev with Printed line => Some line | _ => None end) events.

(** ** Vocabulary of the further properties *)

(** The rows of an id that no table knows. *)
Definition no_record `{codec : JsonCodec}
    : option text * option string * option text * option text :=
  (None, None, None, None).

(** The ids that [run] submitted to the pool, in order. *)
Definition submitted_ids (events : list event) : list string :=
  omap (λ ev, match ev with Submitted task_id => Some task_id | _ => None end) events.

(** Whether the stop condition holds at one of its [n] evaluations from
    the [k]-th on. *)
Definition stop_fires (stop : option (nat → bool)) (k n : nat) : bool :=
  match stop with
  | Some cond => existsb cond (seq k n)
  | None => false
  end.



(** ** The SQL statements, key by key *)

Section sql_facts.
Context {V : Type}.
Implicit Types (t : gmap string V) (k j : string) (v : V).

Lemma lookup_insert_or_ignore k v t j :
  insert_or_ignore k v t !! j
  = match t !! j with
    | Some x => Some x
    | None => if decide (k = j) then Some v else None
    end.
Proof.
  unfold insert_or_ignore.
  destruct (t !! k) as [x|] eqn:Hk.
  - destruct (t !! j) as [y|] eqn:Hj; [done|].
    case_decide; [congruence | done].
  - rewrite lookup_insert. case_decide as Hkj.
    + subst j. by rewrite Hk.
    + by destruct (t !! j).
Qed.

Lemma insert_or_ignore_present k v t : is_Some (t !! k) → insert_or_ignore k v t = t.
Proof. intros [x Hx]. unfold insert_or_ignore. by rewrite Hx. Qed.

Lemma lookup_update_where k v t j :
  update_where k v t !! j
  = if decide (k = j) then (λ _, v) <$> t !! j else t !! j.
Proof.
  unfold update_where.
  destruct (t !! k) as [x|] eqn:Hk.
  - rewrite lookup_insert. case_decide as Hkj; [|done].
    subst j. by rewrite Hk.
  - case_decide as Hkj; [|done]. subst j. by rewrite Hk.
Qed.

Lemma update_where_is_Some k v t j :
  is_Some (update_where k v t !! j) ↔ is_Some (t !! j).
Proof.
  rewrite lookup_update_where. case_decide; [|done].
  by rewrite fmap_is_Some.
Qed.
End sql_facts.

(** ** The store operations, id by id *)

Section store_facts.
Context `{codec : JsonCodec}.
Implicit Types (s : store) (id : string).

(** *** [store_tasks] *)

Lemma insert_or_ignore_fold_kept {V} (g : pyval → V) (tasks : list (string * pyval))
    (t : gmap string V) id x :
  t !! id = Some x →
  foldl (λ t '(task_id, d), insert_or_ignore task_id (g d) t) t tasks !! id = Some x.
Proof.
  revert t. induction tasks as [|[k d] tasks IH]; intros t Hx; simpl; [done|].
  apply IH. by rewrite lookup_insert_or_ignore, Hx.
Qed.

Lemma insert_or_ignore_fold_covers {V} (g : pyval → V) (tasks : list (string * pyval))
    (t : gmap string V) id :
  id ∈ tasks.*1 →
  is_Some (foldl (λ t '(task_id, d), insert_or_ignore task_id (g d) t) t tasks !! id).
Proof.
  revert t. induction tasks as [|[k d] tasks IH]; intros t Hin; simpl in *.
  - by apply elem_of_nil in Hin.
  - apply elem_of_cons in Hin as [->|Hin]; [|by apply IH].
    assert (is_Some (insert_or_ignore k (g d) t !! k)) as [x Hx].
    { rewrite lookup_insert_or_ignore. destruct (t !! k); [done|].
      rewrite decide_True by done. done. }
    rewrite (insert_or_ignore_fold_kept g tasks _ k x Hx). done.
Qed.

Lemma insert_or_ignore_fold_absent {V} (g : pyval → V) (tasks : list (string * pyval))
    (t : gmap string V) id :
  id ∉ tasks.*1 →
  foldl (λ t '(task_id, d), insert_or_ignore task_id (g d) t) t tasks !! id = t !! id.
Proof.
  revert t. induction tasks as [|[k d] tasks IH]; intros t Hin; simpl in *; [done|].
  apply not_elem_of_cons in Hin as [Hk Hin].
  rewrite IH by done. rewrite lookup_insert_or_ignore.
  destruct (t !! id); [done|]. by rewrite decide_False.
Qed.

Lemma insert_or_ignore_fold_noop {V} (g : pyval → V) (tasks : list (string * pyval))
    (t : gmap string V) :
  (∀ id, id ∈ tasks.*1 → is_Some (t !! id)) →
  foldl (λ t '(task_id, d), insert_or_ignore task_id (g d) t) t tasks = t.
Proof.
  induction tasks as [|[k d] tasks IH]; intros Hall; simpl in *; [done|].
  rewrite insert_or_ignore_present by (apply Hall; left).
  apply IH. intros id Hid. apply Hall. by right.
Qed.

Lemma store_tasks_idempotent tasks s :
  store_tasks tasks (store_tasks tasks s) = store_tasks tasks s.
Proof.
  unfold store_tasks. simpl. f_equal.
  - apply (insert_or_ignore_fold_noop json_dumps). intros id Hid.
    by apply (insert_or_ignore_fold_covers json_dumps).
  - apply (insert_or_ignore_fold_noop (λ _, "pending")). intros id Hid.
    by apply (insert_or_ignore_fold_covers (λ _, "pending")).
Qed.

Lemma pending_fold_new (tasks : list (string * pyval)) (t : gmap string string) id :
  t !! id = None → id ∈ tasks.*1 →
  foldl (λ t '(task_id, _), insert_or_ignore task_id "pending" t) t tasks !! id
  = Some "pending".
Proof.
  revert t. induction tasks as [|[k d] tasks IH]; intros t Hst Hin; simpl in *.
  - by apply elem_of_nil in Hin.
  - destruct (decide (k = id)) as [->|Hne].
    + apply (insert_or_ignore_fold_kept (λ _, "pending")).
      rewrite lookup_insert_or_ignore, Hst. by rewrite decide_True.
    + apply elem_of_cons in Hin as [?|Hin]; [congruence|].
      apply IH; [|done]. rewrite lookup_insert_or_ignore, Hst.
      by rewrite decide_False.
Qed.

Lemma store_tasks_status tasks s id :
  task_status (store_tasks tasks s) !! id
  = match task_status s !! id with
    | Some st => Some st
    | None => if decide (id ∈ tasks.*1) then Some "pending" else None
    end.
Proof.
  simpl. destruct (task_status s !! id) as [st|] eqn:Hst.
  - by apply (insert_or_ignore_fold_kept (λ _, "pending")).
  - case_decide as Hin.
    + by apply pending_fold_new.
    + rewrite (insert_or_ignore_fold_absent (λ _, "pending")) by done. done.
Qed.

(** *** [update_task_statuses] *)

Lemma status_fold_lookup (statuses : list status_entry) (t : gmap string string) id :
  id ∉ entry_id <$> statuses →
  foldl (λ t '(task_id, status, _, _), update_where task_id status t) t statuses !! id
  = t !! id.
Proof.
  revert t. induction statuses as [|[[[k st] r] e] statuses IH]; intros t Hin; simpl in *; [done|].
  apply not_elem_of_cons in Hin as [Hk Hin]. unfold entry_id in Hk. simpl in Hk.
  rewrite IH by done. rewrite lookup_update_where. by rewrite decide_False.
Qed.

Lemma status_fold_is_Some (statuses : list status_entry) (t : gmap string string) id :
  is_Some (foldl (λ t '(task_id, status, _, _), update_where task_id status t) t statuses !! id)
  ↔ is_Some (t !! id).
Proof.
  revert t. induction statuses as [|[[[k st] r] e] statuses IH]; intros t; simpl; [done|].
  rewrite IH. apply update_where_is_Some.
Qed.

Lemma outcome_fold_lookup (statuses : list status_entry) (re : gmap string text * gmap string text) id :
  id ∉ entry_id <$> statuses →
  (foldl record_outcome re statuses).1 !! id = re.1 !! id
  ∧ (foldl record_outcome re statuses).2 !! id = re.2 !! id.
Proof.
  revert re. induction statuses as [|[[[k st] r] e] statuses IH]; intros re Hin; [done|].
  rewrite fmap_cons in Hin.
  apply not_elem_of_cons in Hin as [Hk Hin]. unfold entry_id in Hk. simpl in Hk.
  cbn [foldl].
  destruct (IH (record_outcome re (k, st, r, e)) Hin) as [-> ->].
  unfold record_outcome, insert_or_replace. simpl.
  split; [destruct (truthy r) | destruct (truthy e)];
    by rewrite ?lookup_insert_ne.
Qed.

Lemma update_task_statuses_other statuses s id :
  id ∉ entry_id <$> statuses →
  record_of id (update_task_statuses statuses s) = record_of id s.
Proof.
  intros Hin. unfold record_of. simpl.
  rewrite status_fold_lookup by done.
  by destruct (outcome_fold_lookup statuses (task_result s, task_error s) id Hin) as [-> ->].
Qed.

(** One entry, as [run] writes it. *)
Lemma update_one_status k st r e s id :
  task_status (update_task_statuses [(k, st, r, e)] s) !! id
  = if decide (k = id) then (λ _, st) <$> task_status s !! id else task_status s !! id.
Proof. simpl. apply lookup_update_where. Qed.

Lemma update_one_result k st r e s id :
  task_result (update_task_statuses [(k, st, r, e)] s) !! id
  = if decide (k = id ∧ truthy r = true) then Some (json_dumps r) else task_result s !! id.
Proof.
  simpl. unfold insert_or_replace. destruct (truthy r).
  - rewrite lookup_insert. destruct (decide (k = id)).
    + by rewrite decide_True.
    + rewrite decide_False; [done | by intros []].
  - rewrite decide_False; [done | by intros []].
Qed.

Lemma update_one_error k st r e s id :
  task_error (update_task_statuses [(k, st, r, e)] s) !! id
  = if decide (k = id ∧ truthy e = true) then Some (json_dumps e) else task_error s !! id.
Proof.
  simpl. unfold insert_or_replace. destruct (truthy e).
  - rewrite lookup_insert. destruct (decide (k = id)).
    + by rewrite decide_True.
    + rewrite decide_False; [done | by intros []].
  - rewrite decide_False; [done | by intros []].
Qed.

End store_facts.

(** ** The queries *)

Section query_facts.
Context `{codec : JsonCodec}.
Implicit Types (s : store) (id : string).

Lemma elem_of_select_status status s id :
  id ∈ select_status status s ↔ task_status s !! id = Some status.
Proof.
  unfold select_status. rewrite list_elem_of_fmap. split.
  - intros [[k st] [-> Hin]]. apply elem_of_map_to_list in Hin.
    apply map_lookup_filter_Some in Hin as [Hk Hst]. simpl in *. by subst.
  - intros Hst. exists (id, status). split; [done|].
    apply elem_of_map_to_list. by apply map_lookup_filter_Some.
Qed.

Lemma NoDup_select_status status s : NoDup (select_status status s).
Proof. apply NoDup_fst_map_to_list. Qed.

Lemma length_select_status status s :
  length (select_status status s) = count_status status s.
Proof. unfold select_status, count_status. by rewrite length_fmap, length_map_to_list. Qed.

Lemma elem_of_get_pending_tasks s id :
  id ∈ get_pending_tasks s ↔ task_status s !! id = Some "pending".
Proof. apply elem_of_select_status. Qed.

Lemma elem_of_get_completed_tasks s id :
  id ∈ get_completed_tasks s ↔ task_status s !! id = Some "completed".
Proof. apply elem_of_select_status. Qed.

Lemma elem_of_get_failed_tasks s id v :
  (id, v) ∈ get_failed_tasks s
  ↔ task_status s !! id = Some "failed"
    ∧ ∃ e, task_error s !! id = Some e ∧ v = json_loads e.
Proof.
  unfold get_failed_tasks. rewrite list_elem_of_omap. split.
  - intros [[k st] [Hin Hrow]]. apply elem_of_map_to_list in Hin. simpl in Hrow.
    case_decide as Hst; [|done]. subst st.
    destruct (task_error s !! k) as [e|] eqn:He; [|done].
    simpl in Hrow. injection Hrow as <- <-. eauto.
  - intros [Hst [e [He ->]]]. exists (id, "failed"). split.
    + by apply elem_of_map_to_list.
    + simpl. by rewrite He.
Qed.

Lemma elem_of_failed_ids s id :
  id ∈ (get_failed_tasks s).*1
  ↔ task_status s !! id = Some "failed" ∧ is_Some (task_error s !! id).
Proof.
  rewrite list_elem_of_fmap. split.
  - intros [[k v] [-> Hin]]. apply elem_of_get_failed_tasks in Hin as [Hst [e [He _]]].
    simpl. eauto.
  - intros [Hst [e He]]. exists (id, json_loads e). split; [done|].
    apply elem_of_get_failed_tasks. eauto.
Qed.
End query_facts.

(** ** [store_tasks] is insert-if-absent *)

Section insert_if_absent.
Context `{codec : JsonCodec}.

(** C4. [store_tasks] is idempotent, and for an id that already has its
    definition and status rows a call of [store_tasks], whatever the
    batch holds for that id, leaves the definition, the status, the
    result and the error of the id as they were. *)
Theorem store_tasks_insert_if_absent (tasks : list (string * pyval)) (s : store) :
  store_tasks tasks (store_tasks tasks s) = store_tasks tasks s
  ∧ ∀ id, is_Some (task_definition s !! id) → is_Some (task_status s !! id) →
      record_of id (store_tasks tasks s) = record_of id s.
Proof.
  split; [apply store_tasks_idempotent|].
  intros id [d Hd] [st Hst]. unfold record_of.
  rewrite store_tasks_status, Hst. simpl.
  by rewrite (insert_or_ignore_fold_kept json_dumps tasks _ id d Hd), Hd.
Qed.
End insert_if_absent.

Lemma store_tasks_insert_if_absent_witness :
  is_Some (task_definition completed_t1 !! "t1")
  ∧ is_Some (task_status completed_t1 !! "t1")
  ∧ record_of "t1" (store_tasks [("t1", PInt 7); ("t2", PNone)] completed_t1)
    = record_of "t1" completed_t1.
Proof.
  assert (is_Some (task_definition completed_t1 !! "t1")) as Hd
    by (vm_compute; eexists; reflexivity).
  assert (is_Some (task_status completed_t1 !! "t1")) as Hst
    by (vm_compute; eexists; reflexivity).
  split; [exact Hd|]. split; [exact Hst|].
  exact (proj2 (store_tasks_insert_if_absent [("t1", PInt 7); ("t2", PNone)] completed_t1)
               "t1" Hd Hst).
Defined.

(** ** [get_task_status] on an id without a status row *)

Section status_lookup.
Context `{codec : JsonCodec}.

(** C9. [get_task_status] raises (the subscript on the missing row is a
    [TypeError]) when the id has no status row, and returns the status
    when it has one. *)
Theorem get_task_status_row (s : store) (id : string) :
  (task_status s !! id = None → get_task_status id s = inl TypeError)
  ∧ (∀ status, task_status s !! id = Some status → get_task_status id s = inr status).
Proof.
  unfold get_task_status. split.
  - by intros ->.
  - by intros status ->.
Qed.
End status_lookup.

Lemma get_task_status_row_witness :
  get_task_status "t2" one_task = inl TypeError
  ∧ get_task_status "t1" one_task = inr "pending".
Proof.
  split.
  - apply (proj1 (get_task_status_row one_task "t2")). vm_compute. reflexivity.
  - apply (proj2 (get_task_status_row one_task "t1")). vm_compute. reflexivity.
Defined.

(** ** What one entry of [update_task_statuses] does *)

Section update_entries.
Context `{codec : JsonCodec}.

(** The last entry of a batch for its id decides the rows of that id. *)
Lemma update_last_entry (before after : list status_entry) id status result error (s : store) :
  id ∉ entry_id <$> after →
  let s0 := update_task_statuses before s in
  let s' := update_task_statuses (before ++ (id, status, result, error) :: after) s in
  task_status s' !! id = (λ _, status) <$> task_status s !! id
  ∧ task_result s' !! id
    = (if truthy result then Some (json_dumps result) else task_result s0 !! id)
  ∧ task_error s' !! id
    = (if truthy error then Some (json_dumps error) else task_error s0 !! id).
Proof.
  intros Hafter. simpl. rewrite !foldl_app. cbn [foldl].
  split.
  - rewrite status_fold_lookup by done.
    rewrite lookup_update_where, decide_True by done.
    pose proof (status_fold_is_Some before (task_status s) id) as Hdom.
    revert Hdom. generalize (foldl (λ t '(task_id, status, _, _), update_where task_id status t)
                                   (task_status s) before).
    intros t Hdom.
    destruct (t !! id) as [x|] eqn:Hx;
      destruct (task_status s !! id) as [y|] eqn:Hy; try done.
    + destruct (proj1 Hdom) as [? ?]; [by eexists | done].
    + destruct (proj2 Hdom) as [? ?]; [by eexists | done].
  - set (re := foldl record_outcome (task_result s, task_error s) before).
    destruct (outcome_fold_lookup after (record_outcome re (id, status, result, error)) id Hafter)
      as [-> ->].
    unfold record_outcome, insert_or_replace. simpl.
    split; [destruct (truthy result) | destruct (truthy error)];
      by rewrite ?lookup_insert_eq.
Qed.

(** C3, as the code has it. For the last entry [(id, status, result,
    error)] that a batch holds for an id: the status row of the id, if it
    has one, gets the entry's status, and no status row is created
    otherwise; a non-empty result is stored, replacing any stored one,
    and so is a non-empty error; a result or an error that is [None] is
    left as the entries before it left it. *)
Theorem update_task_statuses_entry (before after : list status_entry)
    id status result error (s : store) :
  id ∉ entry_id <$> after →
  let s0 := update_task_statuses before s in
  let s' := update_task_statuses (before ++ (id, status, result, error) :: after) s in
  task_status s' !! id = (λ _, status) <$> task_status s !! id
  ∧ (truthy result = true → task_result s' !! id = Some (json_dumps result))
  ∧ (truthy error = true → task_error s' !! id = Some (json_dumps error))
  ∧ (result = PNone → task_result s' !! id = task_result s0 !! id)
  ∧ (error = PNone → task_error s' !! id = task_error s0 !! id).
Proof.
  intros Hafter s0 s'.
  destruct (update_last_entry before after id status result error s Hafter)
    as (Hst & Hres & Herr).
  cbv zeta in Hst, Hres, Herr. subst s0 s'.
  split; [exact Hst|]. repeat split.
  - intros Ht. by rewrite Hres, Ht.
  - intros Ht. by rewrite Herr, Ht.
  - intros ->. by rewrite Hres.
  - intros ->. by rewrite Herr.
Qed.

(** C10, as the code has it. When the id has no status row, a batch
    creates none, so the id is in none of the three queries and not in
    the statuses of [dump_all]; yet a non-empty result or error of the
    last entry for the id is stored and shows in the results or the
    errors of [dump_all]. *)
Theorem update_task_statuses_unknown_id (before after : list status_entry)
    id status result error (s : store) :
  task_status s !! id = None →
  id ∉ entry_id <$> after →
  let s' := update_task_statuses (before ++ (id, status, result, error) :: after) s in
  task_statuses (dump_all s') !! id = None
  ∧ query_count id s' = 0
  ∧ (truthy result = true → task_results (dump_all s') !! id = Some result)
  ∧ (truthy error = true → task_errors (dump_all s') !! id = Some error).
Proof.
  intros Hnone Hafter s'.
  destruct (update_last_entry before after id status result error s Hafter)
    as (Hst & Hres & Herr).
  cbv zeta in Hst, Hres, Herr. subst s'. rewrite Hnone in Hst. cbn [fmap option_fmap option_map] in Hst.
  split; [exact Hst|]. split; [|split].
  - unfold query_count.
    rewrite !decide_False; [done| | |].
    + intros [Hq _]%elem_of_failed_ids. by rewrite Hst in Hq.
    + intros Hq%elem_of_get_completed_tasks. by rewrite Hst in Hq.
    + intros Hq%elem_of_get_pending_tasks. by rewrite Hst in Hq.
  - intros Ht. cbn [dump_all task_results]. rewrite lookup_fmap, Hres, Ht. simpl.
    by rewrite json_loads_dumps.
  - intros Ht. cbn [dump_all task_errors]. rewrite lookup_fmap, Herr, Ht. simpl.
    by rewrite json_loads_dumps.
Qed.
End update_entries.

Lemma update_task_statuses_entry_witness :
  let s' := update_task_statuses
              [("t1", "failed", PNone, PStr "boom"); ("t1", "completed", ok_result, PNone)]
              one_task in
  task_status s' !! "t1" = Some "completed"
  ∧ task_result s' !! "t1" = Some ok_result
  ∧ task_error s' !! "t1" = Some (PStr "boom").
Proof.
  pose proof (update_task_statuses_entry (codec := plain_codec)
                [("t1", "failed", PNone, PStr "boom")] []
                "t1" "completed" ok_result PNone one_task
                (not_elem_of_nil _)) as H.
  destruct H as (Hst & Hres & _ & _ & Herr).
  split; [|split].
  - etransitivity; [exact Hst | vm_compute; reflexivity].
  - exact (Hres eq_refl).
  - etransitivity; [exact (Herr eq_refl) | vm_compute; reflexivity].
Defined.

(** The claim C3 fails on the code: no status is written for an id that
    has no status row, and a given result that is empty is not stored. *)
Lemma update_task_statuses_entry_counterexample :
  task_status (update_task_statuses [("ghost", "completed", ok_result, PNone)] one_task)
    !! "ghost" = None
  ∧ task_result (update_task_statuses [("t1", "completed", PDict [], PNone)] one_task)
    !! "t1" = None.
Proof. split; vm_compute; reflexivity. Qed.

Lemma update_task_statuses_unknown_id_witness :
  let s' := update_task_statuses [("ghost", "failed", PNone, PStr "boom")] one_task in
  task_statuses (dump_all s') !! "ghost" = None
  ∧ query_count "ghost" s' = 0
  ∧ task_errors (dump_all s') !! "ghost" = Some (PStr "boom").
Proof.
  assert (task_status one_task !! "ghost" = None) as Hnone by (vm_compute; reflexivity).
  pose proof (update_task_statuses_unknown_id (codec := plain_codec)
                [] [] "ghost" "failed" PNone (PStr "boom") one_task
                Hnone (not_elem_of_nil _)) as H.
  destruct H as (Hst & Hq & _ & Herr).
  split; [exact Hst|]. split; [exact Hq|]. exact (Herr eq_refl).
Defined.

(** The claim C10 fails on the code where the value carried is empty:
    the entry gives the result [{}] and [dump_all] shows no result. *)
Lemma update_task_statuses_unknown_id_counterexample :
  let s' := update_task_statuses [("ghost", "completed", PDict [], PNone)] one_task in
  task_status one_task !! "ghost" = None
  ∧ task_results (dump_all s') !! "ghost" = None.
Proof. split; vm_compute; reflexivity. Qed.

(** ** The three status queries *)

Section partition.
Context `{codec : JsonCodec}.

(** C8, as the code has it. An id appears in at most one of the pending,
    completed and failed queries; it appears in exactly one of them when
    its status is ['pending'] or ['completed'], or ['failed'] with an
    error stored for it. *)
Theorem status_partition (s : store) (id : string) :
  (query_count id s ≤ 1)%nat
  ∧ (task_status s !! id = Some "pending"
     ∨ task_status s !! id = Some "completed"
     ∨ (task_status s !! id = Some "failed" ∧ is_Some (task_error s !! id)) →
     query_count id s = 1).
Proof.
  unfold query_count.
  pose proof (elem_of_get_pending_tasks s id) as Hp.
  pose proof (elem_of_get_completed_tasks s id) as Hc.
  pose proof (elem_of_failed_ids s id) as Hf.
  destruct (decide (id ∈ get_pending_tasks s)) as [Dp|Dp];
    destruct (decide (id ∈ get_completed_tasks s)) as [Dc|Dc];
    destruct (decide (id ∈ (get_failed_tasks s).*1)) as [Df|Df];
    (split; [|intros Hcase]; simpl; try lia; exfalso; intuition congruence).
Qed.
End partition.

Lemma status_partition_witness :
  (query_count "t1" completed_t1 ≤ 1)%nat ∧ query_count "t1" completed_t1 = 1.
Proof.
  split.
  - exact (proj1 (status_partition completed_t1 "t1")).
  - apply (proj2 (status_partition completed_t1 "t1")).
    right; left. vm_compute. reflexivity.
Defined.

(** The claim C8 fails on the code: an id that was inserted, never
    cleared, and failed by an update that gives no error is in none of
    the three queries. *)
Lemma status_partition_counterexample :
  let s := run_ops (codec := plain_codec)
             [StoreTasks [("t1", PDict [])];
              UpdateTaskStatuses [("t1", "failed", PNone, PNone)]] setup_db in
  task_definition s !! "t1" = Some (PDict [])
  ∧ task_status s !! "t1" = Some "failed"
  ∧ query_count "t1" s = 0.
Proof. repeat split; vm_compute; reflexivity. Qed.

(** ** The life cycle of a record *)

Section life_cycle.
Context `{codec : JsonCodec}.
Implicit Types (s : store) (id : string).

Lemma record_of_clear_tasks task_ids s id :
  record_of id (clear_tasks task_ids s)
  = if decide (id ∈ task_ids) then (None, None, None, None) else record_of id s.
Proof.
  revert s. induction task_ids as [|k task_ids IH]; intros s.
  - by rewrite decide_False by apply not_elem_of_nil.
  - unfold clear_tasks in *. cbn [foldl]. rewrite IH.
    destruct (decide (id ∈ task_ids)) as [Hin|Hin].
    + by rewrite decide_True by (by right).
    + unfold record_of, delete_where. simpl.
      destruct (decide (id = k)) as [->|Hne].
      * rewrite decide_True by (by left). by rewrite !lookup_delete_eq.
      * rewrite decide_False by (by intros [?|?]%elem_of_cons).
        by rewrite !lookup_delete_ne.
Qed.

Lemma lifecycle_inv_setup_db : lifecycle_inv setup_db.
Proof. intros id. simpl. rewrite !lookup_empty. split; by intros [? ?]. Qed.

Lemma lifecycle_inv_store_tasks tasks s :
  lifecycle_inv s → lifecycle_inv (store_tasks tasks s).
Proof.
  intros Hinv id. destruct (Hinv id) as [Hres Herr].
  rewrite store_tasks_status. cbn [store_tasks task_result task_error].
  split; intros Hsome.
  - by rewrite (Hres Hsome).
  - by rewrite (Herr Hsome).
Qed.

Lemma lifecycle_inv_clear s : lifecycle_inv (clear s).
Proof. apply lifecycle_inv_setup_db. Qed.

Lemma lifecycle_inv_clear_tasks task_ids s :
  lifecycle_inv s → lifecycle_inv (clear_tasks task_ids s).
Proof.
  intros Hinv id. destruct (Hinv id) as [Hres Herr].
  pose proof (record_of_clear_tasks task_ids s id) as Hrec.
  unfold record_of in Hrec. destruct (decide (id ∈ task_ids)).
  - injection Hrec as _ _ -> ->. split; by intros [? ?].
  - injection Hrec as _ -> -> ->. done.
Qed.

Lemma executor_write_inv statuses s :
  executor_write statuses s = true →
  ∃ k st r e, statuses = [(k, st, r, e)]
    ∧ task_status s !! k = Some "pending"
    ∧ ((st = "completed" ∧ e = PNone) ∨ (st = "failed" ∧ r = PNone)).
Proof.
  destruct statuses as [|[[[k st] r] e] [|? ?]]; try done.
  unfold executor_write. intros [Hp Hshape]%andb_prop.
  apply bool_decide_eq_true in Hp.
  exists k, st, r, e. split; [done|]. split; [done|].
  apply orb_prop in Hshape as [[Hst Hn]%andb_prop|[Hst Hn]%andb_prop];
    apply String.eqb_eq in Hst; [left; destruct e | right; destruct r]; done.
Qed.

Lemma lifecycle_inv_executor_write statuses s :
  executor_write statuses s = true →
  lifecycle_inv s → lifecycle_inv (update_task_statuses statuses s).
Proof.
  intros (k & st & r & e & -> & Hp & Hshape)%executor_write_inv Hinv id.
  destruct (Hinv id) as [Hres Herr].
  rewrite update_one_status, update_one_result, update_one_error.
  destruct (decide (k = id)) as [->|Hne].
  - assert (task_result s !! id = None) as Hr0.
    { destruct (task_result s !! id) eqn:Hx; [|done].
      rewrite Hres in Hp by done. done. }
    assert (task_error s !! id = None) as He0.
    { destruct (task_error s !! id) eqn:Hx; [|done].
      rewrite Herr in Hp by done. done. }
    rewrite Hp, Hr0, He0. simpl.
    destruct Hshape as [[-> ->]|[-> ->]]; simpl.
    + split; [done|]. rewrite decide_False by (by intros []). by intros [? ?].
    + split; [|done]. rewrite decide_False by (by intros []). by intros [? ?].
  - rewrite !decide_False by (by intros []). done.
Qed.

Lemma lifecycle_inv_apply_op o s :
  lifecycle_op o s = true → lifecycle_inv s → lifecycle_inv (apply_op o s).
Proof.
  destruct o as [tasks|statuses| |task_ids]; simpl; intros Hok Hinv.
  - by apply lifecycle_inv_store_tasks.
  - by apply lifecycle_inv_executor_write.
  - apply lifecycle_inv_clear.
  - by apply lifecycle_inv_clear_tasks.
Qed.

Lemma lifecycle_inv_run_ops ops s :
  lifecycle ops s = true → lifecycle_inv s → lifecycle_inv (run_ops ops s).
Proof.
  revert s. induction ops as [|o ops IH]; intros s Hok Hinv; [done|].
  simpl in Hok. apply andb_prop in Hok as [Ho Hops].
  unfold run_ops. cbn [foldl]. apply IH; [done|].
  by apply lifecycle_inv_apply_op.
Qed.

(** C1, as the code has it. Along a sequence of store operations from
    the empty store in which every [update_task_statuses] is of the kind
    [run] issues (one entry for a pending id, completing it without an
    error or failing it without a result), no id has a stored result and
    a stored error at the same time. *)
Theorem result_error_exclusive (ops : list op) (id : string) :
  lifecycle ops setup_db = true →
  ¬ (is_Some (task_result (run_ops ops setup_db) !! id)
     ∧ is_Some (task_error (run_ops ops setup_db) !! id)).
Proof.
  intros Hok [Hres Herr].
  destruct (lifecycle_inv_run_ops ops setup_db Hok lifecycle_inv_setup_db id) as [H1 H2].
  specialize (H1 Hres). specialize (H2 Herr). congruence.
Qed.

(** C2, as the code has it. [get_task_result] returns [None] exactly
    when no result is stored for the id, and the stored result
    otherwise, whatever the status; in a store reached from the empty
    one by a sequence of operations that satisfies [lifecycle] it
    therefore returns [None] for every id that is unknown or whose
    status is not ['completed']. *)
Theorem get_task_result_absent (s : store) (id : string) :
  get_task_result id s = json_loads <$> task_result s !! id
  ∧ ∀ ops, lifecycle ops setup_db = true → s = run_ops ops setup_db →
      task_status s !! id ≠ Some "completed" → get_task_result id s = None.
Proof.
  split.
  - unfold get_task_result. by destruct (task_result s !! id).
  - intros ops Hok -> Hst. unfold get_task_result.
    destruct (task_result _ !! id) as [row|] eqn:Hrow; [|done].
    destruct (lifecycle_inv_run_ops ops setup_db Hok lifecycle_inv_setup_db id) as [H1 _].
    destruct Hst. apply H1. by eexists.
Qed.
End life_cycle.


Lemma result_error_exclusive_witness :
  lifecycle (codec := plain_codec) sample_ops setup_db = true
  ∧ ¬ (is_Some (task_result (run_ops (codec := plain_codec) sample_ops setup_db) !! "t2")
       ∧ is_Some (task_error (run_ops (codec := plain_codec) sample_ops setup_db) !! "t2")).
Proof.
  assert (lifecycle (codec := plain_codec) sample_ops setup_db = true) as Hok by (vm_compute; reflexivity).
  split; [exact Hok|].
  exact (result_error_exclusive sample_ops "t2" Hok).
Defined.

(** The claim C1 fails on the code: after a record is completed with a
    result and then failed with an error, it has both. *)
Lemma result_error_exclusive_counterexample :
  task_result (run_ops (codec := plain_codec) completed_then_failed setup_db) !! "t1" = Some ok_result
  ∧ task_error (run_ops (codec := plain_codec) completed_then_failed setup_db) !! "t1" = Some (PStr "boom").
Proof. split; vm_compute; reflexivity. Qed.

Lemma get_task_result_absent_witness :
  lifecycle (codec := plain_codec) sample_ops setup_db = true
  ∧ task_status (run_ops (codec := plain_codec) sample_ops setup_db) !! "t2" ≠ Some "completed"
  ∧ get_task_result "t2" (run_ops (codec := plain_codec) sample_ops setup_db) = None.
Proof.
  assert (lifecycle (codec := plain_codec) sample_ops setup_db = true) as Hok by (vm_compute; reflexivity).
  assert (task_status (run_ops (codec := plain_codec) sample_ops setup_db) !! "t2" ≠ Some "completed") as Hst
    by (vm_compute; discriminate).
  split; [exact Hok|]. split; [exact Hst|].
  exact (proj2 (get_task_result_absent (run_ops (codec := plain_codec) sample_ops setup_db) "t2")
               sample_ops Hok eq_refl Hst).
Defined.

(** The claim C2 fails on the code: the status of [t1] is ['failed'],
    not ['completed'], and [get_task_result] still returns its result. *)
Lemma get_task_result_absent_counterexample :
  task_status (run_ops (codec := plain_codec) completed_then_failed setup_db) !! "t1" = Some "failed"
  ∧ get_task_result "t1" (run_ops (codec := plain_codec) completed_then_failed setup_db) = Some ok_result.
Proof. split; vm_compute; reflexivity. Qed.


(** ** The scheduler and the loop of [run] *)

Section scheduling.
Context {A : Type}.
Implicit Types (l : list A) (sched : list nat).

Lemma as_completed_from_Permutation n sched l :
  length l = n → as_completed_from n sched l ≡ₚ l.
Proof.
  revert sched l. induction n as [|n IH]; intros sched l Hlen.
  - by destruct l.
  - cbn [as_completed_from].
    assert (hd 0 sched `mod` length l < length l) as Hlt
      by (apply Nat.mod_upper_bound; lia).
    destruct (lookup_lt_is_Some_2 l _ Hlt) as [f Hf]. rewrite Hf.
    etransitivity; [|symmetry; apply (delete_Permutation l _ f Hf)].
    constructor. apply IH. rewrite length_delete by eauto. lia.
Qed.

Lemma as_completed_Permutation sched l : as_completed sched l ≡ₚ l.
Proof. by apply as_completed_from_Permutation. Qed.

Lemma as_completed_from_Forall2 {B} (R : A → B → Prop) n sched l (k : list B) :
  Forall2 R l k →
  Forall2 R (as_completed_from n sched l) (as_completed_from n sched k).
Proof.
  revert sched l k. induction n as [|n IH]; intros sched l k HR; [constructor|].
  cbn [as_completed_from]. rewrite <- (Forall2_length _ _ _ HR).
  destruct (l !! _) as [f|] eqn:Hf.
  - destruct (Forall2_lookup_l _ _ _ _ _ HR Hf) as (g & -> & Hfg).
    constructor; [done|]. apply IH. by apply Forall2_delete.
  - destruct (k !! _) as [g|] eqn:Hg; [|constructor].
    destruct (Forall2_lookup_r _ _ _ _ _ HR Hg) as (f & Hf' & _). congruence.
Qed.

Lemma as_completed_Forall2 {B} (R : A → B → Prop) sched l (k : list B) :
  Forall2 R l k → Forall2 R (as_completed sched l) (as_completed sched k).
Proof.
  intros HR. unfold as_completed. rewrite <- (Forall2_length _ _ _ HR).
  by apply as_completed_from_Forall2.
Qed.
End scheduling.

Section harvesting.
Context `{codec : JsonCodec}.
Implicit Types (mem : store) (t : task) (id : string).

(** The write of a failure is never refused: the error is a string. *)
Lemma record_failure_inr t e mem :
  record_failure t e mem
  = inr (update_task_statuses [(get_id t, "failed", PNone, PStr e)] mem).
Proof.
  unfold record_failure, update_task_statuses_call.
  cbn [batch_refused entry_refused]. rewrite json_accepts_str.
  change (truthy PNone) with false. cbn iota. by destruct (truthy (PStr e)).
Qed.

Lemma recorded_written stopped t mem :
  recorded stopped t mem
  = match written stopped t with
    | Some e => update_task_statuses [e] mem
    | None => mem
    end.
Proof.
  unfold recorded, written, record_completion.
  destruct (execute_task stopped t) as [r|e|e]; [|by rewrite record_failure_inr|done].
  unfold update_task_statuses_call. cbn [batch_refused entry_refused].
  change (truthy PNone) with false. cbn iota.
  destruct (if truthy r then json_refuses r else None) as [msg|]; [|done].
  by rewrite record_failure_inr.
Qed.

(** Only an exception that is not an [Exception] leaves the loop body. *)
Lemma record_completion_cases stopped t mem :
  record_completion stopped t mem
  = match execute_task stopped t with
    | RaisesBase msg => inl (BaseException msg)
    | _ => inr (recorded stopped t mem)
    end.
Proof.
  unfold recorded, record_completion.
  destruct (execute_task stopped t) as [r|e|e]; [|by rewrite record_failure_inr|done].
  destruct (update_task_statuses_call _ mem); [by rewrite record_failure_inr | done].
Qed.

Lemma recorded_escapes stopped t mem :
  escapes stopped t = true → recorded stopped t mem = mem.
Proof.
  unfold escapes. intros Hesc. rewrite recorded_written. unfold written.
  by destruct (execute_task stopped t).
Qed.

Lemma harvest_memory stop stopped k completed mem :
  end_memory (harvest stop stopped k completed mem)
  = foldl (λ mem t, recorded stopped t mem) mem (harvested stop stopped k completed).
Proof.
  revert k mem. induction completed as [|t rest IH]; intros k mem; [done|].
  cbn [harvest harvested]. rewrite record_completion_cases.
  destruct (escapes stopped t) eqn:Hesc.
  - cbn [foldl]. rewrite recorded_escapes by done.
    unfold escapes in Hesc. by destruct (execute_task stopped t).
  - assert (match execute_task stopped t with
            | RaisesBase msg => inl (BaseException msg)
            | _ => inr (recorded stopped t mem)
            end = inr (recorded stopped t mem)) as ->.
    { unfold escapes in Hesc. by destruct (execute_task stopped t). }
    destruct (match stop with Some cond => cond k | None => false end); [done|].
    cbn [foldl]. apply IH.
Qed.

(** The loop ends without an exception exactly when no processed
    completion raises one that is not an [Exception]. *)
Lemma harvest_raised_None stop stopped k completed mem :
  end_raised (harvest stop stopped k completed mem) = None
  ↔ ∀ t, t ∈ harvested stop stopped k completed → escapes stopped t = false.
Proof.
  revert k mem. induction completed as [|t rest IH]; intros k mem.
  - split; [|done]. intros _ t Hin. by apply elem_of_nil in Hin.
  - cbn [harvest harvested]. rewrite record_completion_cases.
    destruct (escapes stopped t) eqn:Hesc.
    + unfold escapes in Hesc.
      destruct (execute_task stopped t) eqn:Hex; try done. split; [done|].
      intros Hall. specialize (Hall t (list_elem_of_here _ _)).
      unfold escapes in Hall. by rewrite Hex in Hall.
    + assert (match execute_task stopped t with
              | RaisesBase msg => inl (BaseException msg)
              | _ => inr (recorded stopped t mem)
              end = inr (recorded stopped t mem)) as ->.
      { unfold escapes in Hesc. by destruct (execute_task stopped t). }
      destruct (match stop with Some cond => cond k | None => false end).
      * split; [|done]. intros _ u Hu. by apply list_elem_of_singleton in Hu as ->.
      * rewrite IH. split.
        -- intros Hall u [->|Hu]%elem_of_cons; [done | by apply Hall].
        -- intros Hall u Hu. apply Hall. by right.
Qed.

(** The flag and the line of the stop, when no exception leaves the loop. *)
Lemma harvest_flags stop stopped k (completed : list task) mem :
  end_raised (harvest stop stopped k completed mem) = None →
  end_stopped (harvest stop stopped k completed mem)
  = stopped || stop_fires stop k (length completed)
  ∧ end_printed (harvest stop stopped k completed mem)
    = if stop_fires stop k (length completed)
      then [Printed "Emergency stop condition met. Halting execution."]
      else [].
Proof.
  revert k mem. induction completed as [|t rest IH]; intros k mem.
  - intros _. cbn [harvest length end_stopped end_printed].
    destruct stop; simpl; by rewrite orb_false_r.
  - cbn [harvest length]. destruct (record_completion stopped t mem) as [e|mem']; [done|].
    destruct stop as [cond|].
    + cbn [stop_fires seq existsb]. destruct (cond k); simpl.
      * intros _. by rewrite orb_true_r.
      * apply IH.
    + apply (IH (S k)).
Qed.



Lemma harvested_prefix stop stopped k completed :
  ∃ rest : list task, completed = (harvested stop stopped k completed ++ rest)%list.
Proof.
  revert k. induction completed as [|t l IH]; intros k; [by exists []|].
  cbn [harvested]. destruct (escapes stopped t); [by exists l|].
  destruct (match stop with Some cond => cond k | None => false end).
  - by exists l.
  - destruct (IH (S k)) as [rest Hrest]. exists rest. simpl. by rewrite <- Hrest.
Qed.

(** Without a stop condition and without an exception that leaves the
    loop, every completion is processed. *)
Lemma harvested_all stopped k completed :
  (∀ t, t ∈ harvested None stopped k completed → escapes stopped t = false) →
  harvested None stopped k completed = completed.
Proof.
  revert k. induction completed as [|t l IH]; intros k Hall; [done|].
  cbn [harvested] in *.
  assert (escapes stopped t = false) as Hesc by (apply Hall; left).
  rewrite Hesc in *. rewrite IH; [done|]. intros u Hu. apply Hall. by right.
Qed.
End harvesting.

(** ** What [run] writes *)

Section run_facts.
Context `{codec : JsonCodec}.
Implicit Types (mem : store) (t : task) (id : string) (ex : executor).

Lemma written_id stopped t e : written stopped t = Some e → entry_id e = get_id t.
Proof.
  unfold written. destruct (execute_task stopped t) as [r|m|m]; [|by intros [= <-]|done].
  destruct (if truthy r then json_refuses r else None); by intros [= <-].
Qed.

Lemma recorded_other stopped t mem id :
  get_id t ≠ id →
  record_of id (recorded stopped t mem) = record_of id mem.
Proof.
  intros Hne. rewrite recorded_written.
  destruct (written stopped t) as [e|] eqn:Hw; [|done].
  apply update_task_statuses_other. rewrite fmap_cons, (written_id _ _ _ Hw).
  by intros ->%list_elem_of_singleton.
Qed.



Lemma fold_recorded_other stopped (l : list task) mem id :
  id ∉ get_id <$> l →
  record_of id (foldl (λ mem t, recorded stopped t mem) mem l)
  = record_of id mem.
Proof.
  revert mem. induction l as [|t l IH]; intros mem Hin; [done|].
  rewrite fmap_cons in Hin. apply not_elem_of_cons in Hin as [Hne Hin].
  cbn [foldl]. rewrite IH by done. by apply recorded_other.
Qed.


Lemma elem_of_tasks_to_run ex t :
  t ∈ tasks_to_run ex
  ↔ task_status (memory ex) !! get_id t = Some "pending" ∧ t ∈ tasks ex.
Proof.
  unfold tasks_to_run.
  by rewrite list_elem_of_filter, elem_of_list_to_set, elem_of_get_pending_tasks.
Qed.

Lemma NoDup_tasks_to_run ex :
  NoDup (get_id <$> tasks ex) → NoDup (get_id <$> tasks_to_run ex).
Proof.
  intros Hnd. eapply sublist_NoDup; [exact Hnd|]. unfold tasks_to_run.
  apply fmap_sublist, (sublist_filter (λ t, get_id t ∈ _)).
Qed.

Lemma run_nil sched ex :
  tasks_to_run ex = [] →
  run sched ex = inr (ex, [Printed "All tasks are already completed."]).
Proof. intros Hnil. unfold run. by rewrite Hnil. Qed.

Lemma run_no_pool sched ex :
  tasks_to_run ex ≠ [] → (max_concurrency ex ≤ 0)%Z →
  run sched ex = inl (ValueError, (ex, [])).
Proof.
  intros Hto Hmax. unfold run. destruct (tasks_to_run ex); [done|].
  by rewrite decide_True.
Qed.

Lemma run_loop sched ex :
  tasks_to_run ex ≠ [] → (0 < max_concurrency ex)%Z →
  run sched ex
  = let h := harvest (stop_all_when ex) (_stopped ex) 0
                     (as_completed sched (tasks_to_run ex)) (memory ex) in
    let ex' := Executor (tasks ex) (end_memory h) (max_concurrency ex)
                        (stop_all_when ex) (end_stopped h) in
    match end_raised h with
    | Some e =>
        inl (e, (ex', PoolCreated (max_concurrency ex)
                      :: (Submitted ∘ get_id <$> tasks_to_run ex) ++ end_printed h))
    | None =>
        inr (ex', PoolCreated (max_concurrency ex)
                  :: (Submitted ∘ get_id <$> tasks_to_run ex)
                  ++ end_printed h ++ (Printed <$> status_summary (end_memory h)))
    end.
Proof.
  intros Hto Hmax. unfold run. destruct (tasks_to_run ex) as [|t0 l]; [done|].
  by rewrite decide_False by lia.
Qed.

Lemma run_result_inr (r : exn * (executor * list event) + executor * list event) :
  run_raised r = None → r = inr (run_executor r, run_events r).
Proof. by destruct r as [[e [ex events]]|[ex events]]. Qed.

Lemma run_result_inl (r : exn * (executor * list event) + executor * list event) e :
  run_raised r = Some e → r = inl (e, (run_executor r, run_events r)).
Proof. destruct r as [[e' [ex events]]|[ex events]]; [|done]. by intros [= ->]. Qed.

(** What a run that had tasks to run and returned has done. *)
Lemma run_returned sched ex ex' events :
  tasks_to_run ex ≠ [] →
  run sched ex = inr (ex', events) →
  let n := length (tasks_to_run ex) in
  let processed := harvested (stop_all_when ex) (_stopped ex) 0
                             (as_completed sched (tasks_to_run ex)) in
  (0 < max_concurrency ex)%Z
  ∧ events
    = PoolCreated (max_concurrency ex)
      :: (Submitted ∘ get_id <$> tasks_to_run ex)
      ++ (if stop_fires (stop_all_when ex) 0 n
          then [Printed "Emergency stop condition met. Halting execution."] else [])
      ++ (Printed <$> status_summary (memory ex'))
  ∧ _stopped ex' = _stopped ex || stop_fires (stop_all_when ex) 0 n
  ∧ tasks ex' = tasks ex
  ∧ memory ex' = foldl (λ mem t, recorded (_stopped ex) t mem) (memory ex) processed
  ∧ ∀ t, t ∈ processed → escapes (_stopped ex) t = false.
Proof.
  intros Hto Hrun n processed.
  destruct (decide (0 < max_concurrency ex)%Z) as [Hmax|Hmax];
    [|by rewrite run_no_pool in Hrun by (done || lia)].
  split; [done|]. rewrite run_loop in Hrun by done. cbv zeta in Hrun.
  pose proof (harvest_memory (stop_all_when ex) (_stopped ex) 0
                (as_completed sched (tasks_to_run ex)) (memory ex)) as Hmem.
  pose proof (harvest_flags (stop_all_when ex) (_stopped ex) 0
                (as_completed sched (tasks_to_run ex)) (memory ex)) as Hflags.
  pose proof (harvest_raised_None (stop_all_when ex) (_stopped ex) 0
                (as_completed sched (tasks_to_run ex)) (memory ex)) as Hnone.
  rewrite (Permutation_length (as_completed_Permutation sched (tasks_to_run ex)))
    in Hflags.
  fold n processed in Hmem, Hflags, Hnone.
  destruct (harvest _ _ _ _ _) as [mem stopped printed raised].
  cbn [end_memory end_stopped end_printed end_raised] in *.
  destruct raised as [e|]; [done|]. injection Hrun as <- <-.
  destruct (Hflags eq_refl) as [-> ->]. cbn [memory _stopped tasks].
  split; [done|]. split; [done|]. split; [done|]. split; [done|]. by apply Hnone.
Qed.

(** A run with tasks to run and a pool returns when no processed
    completion raises an exception that is not an [Exception]. *)
Lemma run_returns sched ex :
  tasks_to_run ex ≠ [] → (0 < max_concurrency ex)%Z →
  (∀ t, t ∈ harvested (stop_all_when ex) (_stopped ex) 0
              (as_completed sched (tasks_to_run ex)) →
        escapes (_stopped ex) t = false) →
  ∃ ex' events, run sched ex = inr (ex', events).
Proof.
  intros Hto Hmax Hall. rewrite run_loop by done. cbv zeta.
  apply harvest_raised_None with (mem := memory ex) in Hall. rewrite Hall. eauto.
Qed.

(** C5. When no task of the executor has a pending id, [run] prints that
    all tasks are completed and returns: no pool is created, no task is
    submitted, and the executor, its store included, is as before. *)
Theorem run_nothing_pending sched ex :
  (∀ t, t ∈ tasks ex → get_id t ∉ get_pending_tasks (memory ex)) →
  run sched ex = inr (ex, [Printed "All tasks are already completed."]).
Proof.
  intros Hnone. unfold run.
  destruct (tasks_to_run ex) as [|t0 to_run] eqn:Hto; [done|].
  assert (t0 ∈ tasks_to_run ex) as Hin by (rewrite Hto; left).
  apply elem_of_tasks_to_run in Hin as [Hp Hin].
  destruct (Hnone t0 Hin). by apply elem_of_get_pending_tasks.
Qed.
End run_facts.


Lemma run_nothing_pending_witness :
  (∀ t, t ∈ tasks resumed → get_id t ∉ get_pending_tasks (memory resumed))
  ∧ run [] resumed = inr (resumed, [Printed "All tasks are already completed."]).
Proof.
  assert (∀ t, t ∈ tasks resumed → get_id t ∉ get_pending_tasks (memory resumed)) as Hnone.
  { intros t _.
    assert (get_pending_tasks (memory resumed) = []) as -> by (vm_compute; reflexivity).
    apply not_elem_of_nil. }
  split; [exact Hnone|]. exact (run_nothing_pending [] resumed Hnone).
Defined.

(** ** The status summary *)

Section summary.
Context `{codec : JsonCodec}.
Implicit Types (s : store).

Lemma map_to_list_filter_Permutation {V} (P : string * V → Prop)
    `{!∀ row, Decision (P row)} (m : gmap string V) :
  map_to_list (filter P m) ≡ₚ filter P (map_to_list m).
Proof.
  apply NoDup_Permutation.
  - apply NoDup_map_to_list.
  - apply NoDup_filter, NoDup_map_to_list.
  - intros [k v]. rewrite list_elem_of_filter, !elem_of_map_to_list.
    rewrite map_lookup_filter_Some. tauto.
Qed.

Lemma length_omap_filter {A B} (f : A → option B) (P : A → Prop)
    `{!∀ x, Decision (P x)} (l : list A) :
  (∀ x, is_Some (f x) ↔ P x) → length (omap f l) = length (filter P l).
Proof.
  intros Hf. induction l as [|x l IH]; [done|].
  rewrite filter_cons. cbn [omap list_omap].
  destruct (f x) as [y|] eqn:Hx.
  - rewrite decide_True by (apply Hf; rewrite Hx; by eexists). simpl. by rewrite IH.
  - rewrite decide_False; [done|]. intros [y Hy]%Hf. congruence.
Qed.

Lemma length_get_failed_tasks s :
  length (get_failed_tasks s) = count_failed_with_error s.
Proof.
  unfold get_failed_tasks, count_failed_with_error.
  rewrite <- length_map_to_list, map_to_list_filter_Permutation.
  apply length_omap_filter. intros [k st]. simpl.
  destruct (decide (st = "failed")) as [->|Hne].
  - rewrite fmap_is_Some. tauto.
  - split; [by intros [? ?] | by intros [? _]].
Qed.

Lemma status_summary_counts s :
  status_summary s
  = [ "Pending tasks: " +:+ pretty (count_status "pending" s);
      "Completed tasks: " +:+ pretty (count_status "completed" s);
      "Failed tasks: " +:+ pretty (count_failed_with_error s) ].
Proof.
  unfold status_summary, get_pending_tasks, get_completed_tasks.
  by rewrite !length_select_status, length_get_failed_tasks.
Qed.

(** C6, as the code has it. When [run] has tasks to run, what it prints
    ends with exactly three lines, read from the store as it is at the
    end: the number of records with status ['pending'], the number with
    status ['completed'], and the number with status ['failed'] that
    have a stored error.  The only line that may be printed before them
    is the one that reports the stop.  [run] gets there when no
    processed completion raises an exception that is not an [Exception],
    and every run that returns has printed these lines. *)
Theorem run_status_summary sched (ex : executor) :
  tasks_to_run ex ≠ [] → (0 < max_concurrency ex)%Z →
  ((∀ t, t ∈ harvested (stop_all_when ex) (_stopped ex) 0
               (as_completed sched (tasks_to_run ex)) →
         escapes (_stopped ex) t = false) →
   ∃ ex' printed,
     run sched ex
     = inr (ex', PoolCreated (max_concurrency ex)
                 :: (Submitted ∘ get_id <$> tasks_to_run ex)
                 ++ printed
                 ++ [ Printed ("Pending tasks: " +:+ pretty (count_status "pending" (memory ex')));
                      Printed ("Completed tasks: " +:+ pretty (count_status "completed" (memory ex')));
                      Printed ("Failed tasks: " +:+ pretty (count_failed_with_error (memory ex'))) ])
     ∧ (printed = [] ∨ printed = [Printed "Emergency stop condition met. Halting execution."]))
  ∧ (∀ ex' events,
       run sched ex = inr (ex', events) →
       ∃ printed,
         events
         = PoolCreated (max_concurrency ex)
           :: (Submitted ∘ get_id <$> tasks_to_run ex)
           ++ printed
           ++ [ Printed ("Pending tasks: " +:+ pretty (count_status "pending" (memory ex')));
                Printed ("Completed tasks: " +:+ pretty (count_status "completed" (memory ex')));
                Printed ("Failed tasks: " +:+ pretty (count_failed_with_error (memory ex'))) ]
         ∧ (printed = [] ∨ printed = [Printed "Emergency stop condition met. Halting execution."])).
Proof.
  intros Hto Hmax.
  assert (∀ ex' events,
            run sched ex = inr (ex', events) →
            ∃ printed,
              events
              = PoolCreated (max_concurrency ex)
                :: (Submitted ∘ get_id <$> tasks_to_run ex)
                ++ printed ++ (Printed <$> status_summary (memory ex'))
              ∧ (printed = []
                 ∨ printed = [Printed "Emergency stop condition met. Halting execution."]))
    as Hreturned.
  { intros ex' events Hrun.
    destruct (run_returned sched ex ex' events Hto Hrun) as (_ & -> & _).
    eexists. split; [reflexivity|]. destruct (stop_fires _ _ _); [by right | by left]. }
  split.
  - intros Hall. destruct (run_returns sched ex Hto Hmax Hall) as (ex' & events & Hrun).
    destruct (Hreturned ex' events Hrun) as (printed & -> & Hpr).
    exists ex', printed. split; [|exact Hpr]. by rewrite Hrun, status_summary_counts.
  - intros ex' events Hrun. destruct (Hreturned ex' events Hrun) as (printed & -> & Hpr).
    exists printed. split; [|exact Hpr]. by rewrite status_summary_counts.
Qed.
End summary.

Lemma run_status_summary_witness :
  tasks_to_run three_tasks ≠ []
  ∧ (0 < max_concurrency three_tasks)%Z
  ∧ (∀ t, t ∈ harvested (stop_all_when three_tasks) (_stopped three_tasks) 0
                (as_completed [2; 0] (tasks_to_run three_tasks)) →
          escapes (_stopped three_tasks) t = false)
  ∧ ∃ ex' printed,
      run [2; 0] three_tasks
      = inr (ex', PoolCreated 2
                  :: (Submitted ∘ get_id <$> tasks_to_run three_tasks)
                  ++ printed
                  ++ [ Printed ("Pending tasks: " +:+ pretty (count_status "pending" (memory ex')));
                       Printed ("Completed tasks: " +:+ pretty (count_status "completed" (memory ex')));
                       Printed ("Failed tasks: " +:+ pretty (count_failed_with_error (memory ex'))) ])
      ∧ (printed = [] ∨ printed = [Printed "Emergency stop condition met. Halting execution."]).
Proof.
  assert (tasks_to_run three_tasks ≠ []) as Hrun by (vm_compute; discriminate).
  assert (0 < max_concurrency three_tasks)%Z as Hmax by (vm_compute; reflexivity).
  assert (∀ t, t ∈ harvested (stop_all_when three_tasks) (_stopped three_tasks) 0
                     (as_completed [2; 0] (tasks_to_run three_tasks)) →
               escapes (_stopped three_tasks) t = false) as Hall.
  { apply Forall_forall. apply (bool_decide_unpack _). vm_compute. exact I. }
  split; [exact Hrun|]. split; [exact Hmax|]. split; [exact Hall|].
  exact (proj1 (run_status_summary [2; 0] three_tasks Hrun Hmax) Hall).
Defined.

(** The claim C6 fails on the code: a record whose status is ['failed']
    and that has no stored error is not counted in the failed line.
    Such a record is left by a task that raises with an empty message,
    and by an update that gives no error. *)
Lemma run_status_summary_counterexample :
  (∃ ex', run [] silent_failure
          = inr (ex', [ PoolCreated 4; Submitted "t1";
                        Printed "Pending tasks: 0"; Printed "Completed tasks: 0";
                        Printed "Failed tasks: 0" ])
          ∧ task_status (memory ex') !! "t1" = Some "failed"
          ∧ count_status "failed" (memory ex') = 1)
  ∧ (∃ ex', run [] failed_without_error
            = inr (ex', [ PoolCreated 4; Submitted "t2";
                          Printed "Pending tasks: 0"; Printed "Completed tasks: 1";
                          Printed "Failed tasks: 0" ])
            ∧ task_status (memory ex') !! "t1" = Some "failed"
            ∧ count_status "failed" (memory ex') = 1).
Proof.
  split.
  - exists (run_executor (run [] silent_failure)). split; [|split].
    + rewrite (run_result_inr (run [] silent_failure)) at 1 by (vm_compute; reflexivity).
      do 2 f_equal; vm_compute; reflexivity.
    + vm_compute. reflexivity.
    + vm_compute. reflexivity.
  - exists (run_executor (run [] failed_without_error)). split; [|split].
    + rewrite (run_result_inr (run [] failed_without_error)) at 1 by (vm_compute; reflexivity).
      do 2 f_equal; vm_compute; reflexivity.
    + vm_compute. reflexivity.
    + vm_compute. reflexivity.
Qed.

(** ** A task that raises *)

Section faults.
Context `{codec : JsonCodec}.
Implicit Types (t : task) (ex : executor).

Lemma harvested_NoDup sched ex :
  NoDup (get_id <$> tasks ex) →
  NoDup (get_id <$> harvested (stop_all_when ex) (_stopped ex) 0
                              (as_completed sched (tasks_to_run ex))).
Proof.
  intros Hnd%NoDup_tasks_to_run.
  rewrite <- (as_completed_Permutation sched (tasks_to_run ex)) in Hnd.
  destruct (harvested_prefix (stop_all_when ex) (_stopped ex) 0
              (as_completed sched (tasks_to_run ex))) as [rest Hrest].
  rewrite Hrest, fmap_app in Hnd. by apply NoDup_app in Hnd as [? _].
Qed.

Lemma harvested_elem_of sched ex t :
  t ∈ harvested (stop_all_when ex) (_stopped ex) 0 (as_completed sched (tasks_to_run ex)) →
  t ∈ tasks_to_run ex.
Proof.
  intros Hin.
  destruct (harvested_prefix (stop_all_when ex) (_stopped ex) 0
              (as_completed sched (tasks_to_run ex))) as [rest Hrest].
  rewrite <- (as_completed_Permutation sched (tasks_to_run ex)), Hrest.
  apply elem_of_app. by left.
Qed.

Lemma harvested_pending sched ex t :
  t ∈ harvested (stop_all_when ex) (_stopped ex) 0 (as_completed sched (tasks_to_run ex)) →
  task_status (memory ex) !! get_id t = Some "pending".
Proof. intros Hin%harvested_elem_of. by apply elem_of_tasks_to_run in Hin as [? _]. Qed.


End faults.



(** ** Definition rows and status rows go together *)

Section rows_together.
Context `{codec : JsonCodec}.
Implicit Types (s : store) (id : string).

Lemma insert_or_ignore_fold_is_Some {V} (g : pyval → V) (tasks : list (string * pyval))
    (t : gmap string V) id :
  is_Some (foldl (λ t '(task_id, d), insert_or_ignore task_id (g d) t) t tasks !! id)
  ↔ is_Some (t !! id) ∨ id ∈ tasks.*1.
Proof.
  destruct (decide (id ∈ tasks.*1)) as [Hin|Hin].
  - split; [by right|]. intros _. by apply insert_or_ignore_fold_covers.
  - rewrite insert_or_ignore_fold_absent by done. tauto.
Qed.

Lemma paired_apply_op o s : paired s → paired (apply_op o s).
Proof.
  intros Hp id. destruct o as [tasks|statuses| |task_ids]; simpl.
  - rewrite (insert_or_ignore_fold_is_Some json_dumps).
    rewrite (insert_or_ignore_fold_is_Some (λ _, "pending")).
    by rewrite (Hp id).
  - rewrite status_fold_is_Some. apply Hp.
  - rewrite !lookup_empty. split; by intros [? ?].
  - pose proof (record_of_clear_tasks task_ids s id) as Hrec.
    unfold record_of in Hrec. destruct (decide (id ∈ task_ids)).
    + injection Hrec as -> -> _ _. split; by intros [? ?].
    + injection Hrec as -> -> _ _. apply Hp.
Qed.

(** In every store reached from the empty one, an id with a definition
    row has a status row, and conversely. *)
Lemma paired_run_ops ops : paired (run_ops ops setup_db).
Proof.
  assert (∀ s, paired s → paired (run_ops ops s)) as Hgen.
  { induction ops as [|o ops IH]; intros s Hp; [done|].
    unfold run_ops. cbn [foldl]. by apply IH, paired_apply_op. }
  apply Hgen. intros id. simpl. rewrite !lookup_empty. split; by intros [? ?].
Qed.
End rows_together.


(** ** [run] follows the life cycle *)

Section run_life_cycle.
Context `{codec : JsonCodec}.
Implicit Types (t : task) (ex : executor) (mem : store).

(** What the loop writes for a pending id is an [executor_write]. *)
Lemma recorded_lifecycle stopped t mem :
  task_status mem !! get_id t = Some "pending" →
  lifecycle_inv mem → lifecycle_inv (recorded stopped t mem).
Proof.
  intros Hp Hinv. rewrite recorded_written. unfold written.
  destruct (execute_task stopped t) as [result|e|e]; [|..|done].
  - destruct (if truthy result then json_refuses result else None);
      apply lifecycle_inv_executor_write; try done;
      unfold executor_write; by rewrite bool_decide_eq_true_2.
  - apply lifecycle_inv_executor_write; [|done].
    unfold executor_write. by rewrite bool_decide_eq_true_2.
Qed.

Lemma fold_recorded_lifecycle stopped (l : list task) mem :
  NoDup (get_id <$> l) →
  (∀ t, t ∈ l → task_status mem !! get_id t = Some "pending") →
  lifecycle_inv mem →
  lifecycle_inv (foldl (λ mem t, recorded stopped t mem) mem l).
Proof.
  revert mem. induction l as [|t l IH]; intros mem Hnd Hp Hinv; [done|].
  rewrite fmap_cons in Hnd. apply NoDup_cons in Hnd as [Hfresh Hnd].
  cbn [foldl]. apply IH; [done| |].
  - intros u Hu.
    assert (get_id t ≠ get_id u) as Hne.
    { intros Heq. apply Hfresh. rewrite Heq. by apply list_elem_of_fmap_2. }
    pose proof (recorded_other stopped t mem (get_id u) Hne) as Hrec.
    unfold record_of in Hrec. injection Hrec as _ -> _ _.
    apply Hp. by right.
  - apply recorded_lifecycle; [|done]. apply Hp. by left.
Qed.

(** When the tasks have distinct ids, every write of [run] moves a
    pending record to its final status, so [run] keeps [lifecycle_inv]. *)
Lemma run_lifecycle_inv sched ex ex' events :
  NoDup (get_id <$> tasks ex) →
  lifecycle_inv (memory ex) →
  run sched ex = inr (ex', events) →
  lifecycle_inv (memory ex').
Proof.
  intros Hnd Hinv Hrun.
  destruct (decide (tasks_to_run ex = [])) as [Hnil|Hto].
  - rewrite run_nil in Hrun by done. by injection Hrun as <- _.
  - destruct (run_returned sched ex ex' events Hto Hrun) as (_ & _ & _ & _ & -> & _).
    apply fold_recorded_lifecycle; [by apply harvested_NoDup| |done].
    intros t. apply harvested_pending.
Qed.
End run_life_cycle.

(** ** The scenarios of the specification, run on the model *)

(** Scenario A: five tasks that succeed, whatever the order of completion
    taken here. *)
Example scenario_all_succeed :
  ∃ ex' events,
    run [3; 1; 4] (five_tasks (Returns ok_result)) = inr (ex', events)
    ∧ printed_lines events
      = ["Pending tasks: 0"; "Completed tasks: 5"; "Failed tasks: 0"]
    ∧ get_task_result "t3" (memory ex') = Some ok_result.
Proof.
  eexists _, _. split; [apply run_result_inr; vm_compute; reflexivity|].
  split; vm_compute; reflexivity.
Qed.

(** Scenarios B and C: [t3] raises with message ["boom"]; a second run on
    the same store has nothing to run and leaves [t3] failed. *)
Example scenario_one_fails :
  ∃ ex' events,
    run [3; 1; 4] (five_tasks (Raises "boom")) = inr (ex', events)
    ∧ printed_lines events
      = ["Pending tasks: 0"; "Completed tasks: 4"; "Failed tasks: 1"]
    ∧ get_failed_tasks (memory ex') = [("t3", PStr "boom")]
    ∧ get_task_result "t3" (memory ex') = None
    ∧ run [] ex' = inr (ex', [Printed "All tasks are already completed."]).
Proof.
  eexists _, _. split; [apply run_result_inr; vm_compute; reflexivity|].
  split; [vm_compute; reflexivity|]. split; [vm_compute; reflexivity|].
  split; [vm_compute; reflexivity|]. apply run_nil. vm_compute. reflexivity.
Qed.

(** Scenario D: clearing [t1] and inserting it again makes it pending,
    with no result and no error. *)
Example scenario_clear_and_insert :
  record_of "t1" (store_tasks [("t1", PInt 2)] (clear_tasks ["t1"] completed_t1))
  = (Some (PInt 2), Some "pending", None, None).
Proof. vm_compute. reflexivity. Qed.

(** A task that raises [SystemExit]: the exception leaves [run], with
    the completions before it recorded, the task itself still pending,
    and no summary. *)
Example scenario_system_exit :
  let r := run [] (five_tasks (RaisesBase "exit")) in
  run_raised r = Some (BaseException "exit")
  ∧ printed_lines (run_events r) = []
  ∧ get_task_status "t1" (memory (run_executor r)) = inr "completed"
  ∧ get_task_status "t2" (memory (run_executor r)) = inr "completed"
  ∧ get_task_status "t3" (memory (run_executor r)) = inr "pending"
  ∧ get_task_status "t4" (memory (run_executor r)) = inr "pending".
Proof.
  cbv zeta.
  split; [vm_compute; reflexivity|]. split; [vm_compute; reflexivity|].
  split; [vm_compute; reflexivity|]. split; [vm_compute; reflexivity|].
  split; vm_compute; reflexivity.
Qed.

(** A task that returns an integer of 4301 digits: [json.dumps] refuses
    it inside the [try], and the task is recorded as failed with the
    message of that exception. *)
Example scenario_refused_result :
  let r := run [] (five_tasks (Returns (PInt (10 ^ 4300)))) in
  run_raised r = None
  ∧ get_failed_tasks (memory (run_executor r))
    = [("t3", PStr ("Exceeds the limit (4300 digits) for integer string conversion; "
                    +:+ "use sys.set_int_max_str_digits() to increase the limit"))]
  ∧ get_task_result "t3" (memory (run_executor r)) = None.
Proof.
  cbv zeta.
  split; [vm_compute; reflexivity|]. split; vm_compute; reflexivity.
Qed.

(** * Further properties of the store *)

Section store_extensionality.
Context `{codec : JsonCodec}.
Implicit Types (s : store) (id : string).

(** Two stores with the same rows for every id are equal. *)
Lemma store_eq s1 s2 : (∀ id, record_of id s1 = record_of id s2) → s1 = s2.
Proof.
  intros Hrec. destruct s1 as [d1 t1 r1 e1], s2 as [d2 t2 r2 e2].
  f_equal; apply map_eq; intros id; specialize (Hrec id);
    unfold record_of in Hrec; simpl in Hrec; congruence.
Qed.

Lemma insert_or_ignore_fold_first {V} (g : pyval → V) (before after : list (string * pyval))
    id d (t : gmap string V) :
  t !! id = None → id ∉ before.*1 →
  foldl (λ t '(task_id, d), insert_or_ignore task_id (g d) t) t
        (before ++ (id, d) :: after) !! id
  = Some (g d).
Proof.
  intros Ht Hbefore. rewrite foldl_app. cbn [foldl].
  apply insert_or_ignore_fold_kept.
  rewrite lookup_insert_or_ignore, insert_or_ignore_fold_absent by done.
  by rewrite Ht, decide_True.
Qed.

(** X1. For an id that the store does not know, [store_tasks] keeps the
    definition of the first pair the batch holds for the id (later pairs
    for the same id are ignored) and makes the id pending: [dump_all]
    gives that definition back, [get_task_status] returns ['pending'],
    and the id is in [get_pending_tasks]. *)
Theorem store_tasks_first_definition (before after : list (string * pyval)) id d s :
  task_definition s !! id = None →
  task_status s !! id = None →
  id ∉ before.*1 →
  task_definitions (dump_all (store_tasks (before ++ (id, d) :: after) s)) !! id = Some d
  ∧ get_task_status id (store_tasks (before ++ (id, d) :: after) s) = inr "pending"
  ∧ id ∈ get_pending_tasks (store_tasks (before ++ (id, d) :: after) s).
Proof.
  intros Hd Hst Hbefore.
  assert (task_status (store_tasks (before ++ (id, d) :: after) s) !! id = Some "pending")
    as Hp.
  { rewrite store_tasks_status, Hst. rewrite decide_True; [done|].
    rewrite fmap_app, fmap_cons. apply elem_of_app. right. left. }
  split; [|split].
  - cbn [dump_all task_definitions store_tasks task_definition].
    rewrite lookup_fmap.
    rewrite (insert_or_ignore_fold_first json_dumps before after id d _ Hd Hbefore).
    simpl. by rewrite json_loads_dumps.
  - unfold get_task_status. by rewrite Hp.
  - by apply elem_of_get_pending_tasks.
Qed.

Lemma store_tasks_other (tasks : list (string * pyval)) s id :
  id ∉ tasks.*1 → record_of id (store_tasks tasks s) = record_of id s.
Proof.
  intros Hid. unfold record_of.
  rewrite store_tasks_status. cbn [store_tasks task_definition task_result task_error].
  rewrite (insert_or_ignore_fold_absent json_dumps) by done.
  rewrite decide_False by done. by destruct (task_status s !! id).
Qed.

(** X2. [store_tasks] never writes a result or an error, and it leaves
    the four rows of every id that is not in the batch as they were. *)
Theorem store_tasks_frame (tasks : list (string * pyval)) s :
  task_result (store_tasks tasks s) = task_result s
  ∧ task_error (store_tasks tasks s) = task_error s
  ∧ ∀ id, id ∉ tasks.*1 → record_of id (store_tasks tasks s) = record_of id s.
Proof.
  split; [done|]. split; [done|]. intros id. apply store_tasks_other.
Qed.

(** X3. After [store_tasks] the pending ids are those that were pending
    and the ids of the batch that had no status row; the completed ids
    and the failed tasks are as before. *)
Theorem store_tasks_queries (tasks : list (string * pyval)) s id :
  (id ∈ get_pending_tasks (store_tasks tasks s)
   ↔ id ∈ get_pending_tasks s ∨ (id ∈ tasks.*1 ∧ task_status s !! id = None))
  ∧ (id ∈ get_completed_tasks (store_tasks tasks s) ↔ id ∈ get_completed_tasks s)
  ∧ (∀ e, (id, e) ∈ get_failed_tasks (store_tasks tasks s) ↔ (id, e) ∈ get_failed_tasks s).
Proof.
  rewrite !elem_of_get_pending_tasks, !elem_of_get_completed_tasks.
  pose proof (store_tasks_status tasks s id) as Hst.
  split; [|split].
  - rewrite Hst. destruct (task_status s !! id) as [st|]; [|case_decide as Hin].
    + split; [by left | by intros [?|[_ ?]]].
    + split; [by right | done].
    + split; [done | by intros [?|[? _]]].
  - rewrite Hst. destruct (task_status s !! id) as [st|]; [done|].
    by case_decide.
  - intros e. rewrite !elem_of_get_failed_tasks.
    cbn [store_tasks task_error]. rewrite Hst.
    destruct (task_status s !! id) as [st|]; [done|].
    case_decide as Hin; split; by intros [? ?].
Qed.
End store_extensionality.

Lemma store_tasks_first_definition_witness :
  task_definitions
    (dump_all (store_tasks [("t1", PInt 0); ("t2", PInt 1); ("t2", PInt 2)] one_task))
    !! "t2" = Some (PInt 1)
  ∧ get_task_status "t2" (store_tasks [("t1", PInt 0); ("t2", PInt 1); ("t2", PInt 2)] one_task)
    = inr "pending".
Proof.
  assert (task_definition one_task !! "t2" = None) as Hd by (vm_compute; reflexivity).
  assert (task_status one_task !! "t2" = None) as Hst by (vm_compute; reflexivity).
  assert ("t2" ∉ [("t1", PInt 0)].*1) as Hb.
  { apply (bool_decide_unpack _). vm_compute. exact I. }
  destruct (store_tasks_first_definition (codec := plain_codec)
              [("t1", PInt 0)] [("t2", PInt 2)] "t2" (PInt 1) one_task Hd Hst Hb)
    as (H1 & H2 & _).
  split; [exact H1 | exact H2].
Defined.

Lemma store_tasks_frame_witness :
  record_of "t1" (store_tasks [("t2", PInt 1)] completed_t1) = record_of "t1" completed_t1.
Proof.
  apply (proj2 (proj2 (store_tasks_frame [("t2", PInt 1)] completed_t1))).
  apply (bool_decide_unpack _). vm_compute. exact I.
Defined.

Section batches.
Context `{codec : JsonCodec}.
Implicit Types (s : store) (id : string).


(** X5. [update_task_statuses] never touches a definition, never creates
    or removes a status row, and leaves the four rows of every id that
    no entry of the batch names as they were. *)
Theorem update_task_statuses_frame (statuses : list status_entry) s :
  task_definition (update_task_statuses statuses s) = task_definition s
  ∧ dom (task_status (update_task_statuses statuses s)) = dom (task_status s)
  ∧ ∀ id, id ∉ entry_id <$> statuses →
      record_of id (update_task_statuses statuses s) = record_of id s.
Proof.
  split; [done|]. split.
  - apply set_eq. intros id. rewrite !elem_of_dom. apply status_fold_is_Some.
  - intros id. apply update_task_statuses_other.
Qed.

(** X6. A non-empty result given by the last entry of a batch for an id
    is what [get_task_result] returns for the id afterwards, whatever the
    status written and whether or not the id was ever inserted. *)
Theorem update_then_get_task_result (before after : list status_entry)
    id status result error s :
  id ∉ entry_id <$> after →
  truthy result = true →
  get_task_result id
    (update_task_statuses (before ++ (id, status, result, error) :: after) s)
  = Some result.
Proof.
  intros Hafter Ht.
  destruct (update_last_entry before after id status result error s Hafter)
    as (_ & Hres & _).
  cbv zeta in Hres. unfold get_task_result. rewrite Hres, Ht.
  by rewrite json_loads_dumps.
Qed.

(** X7. When the last entry of a batch for an id that has a status row
    sets ['failed'] and gives a non-empty error, [get_failed_tasks]
    afterwards returns the id with that error, and the id is neither
    pending nor completed. *)
Theorem update_failed_is_listed (before after : list status_entry)
    id result error s :
  is_Some (task_status s !! id) →
  id ∉ entry_id <$> after →
  truthy error = true →
  let s' := update_task_statuses (before ++ (id, "failed", result, error) :: after) s in
  (id, error) ∈ get_failed_tasks s'
  ∧ (id ∉ get_pending_tasks s')
  ∧ (id ∉ get_completed_tasks s').
Proof.
  intros [st Hst] Hafter Ht s'.
  destruct (update_last_entry before after id "failed" result error s Hafter)
    as (Hs & _ & He).
  cbv zeta in Hs, He. fold s' in Hs, He. rewrite Hst in Hs. rewrite Ht in He.
  cbn [fmap option_fmap option_map] in Hs.
  rewrite elem_of_get_failed_tasks, elem_of_get_pending_tasks, elem_of_get_completed_tasks.
  rewrite Hs. split; [|done]. split; [done|].
  eexists. split; [exact He|]. by rewrite json_loads_dumps.
Qed.
End batches.

Lemma update_task_statuses_frame_witness :
  record_of "t1" (update_task_statuses [("t2", "failed", PNone, PStr "boom")] completed_t1)
  = record_of "t1" completed_t1.
Proof.
  apply (proj2 (proj2 (update_task_statuses_frame
                         [("t2", "failed", PNone, PStr "boom")] completed_t1))).
  apply (bool_decide_unpack _). vm_compute. exact I.
Defined.

Lemma update_then_get_task_result_witness :
  get_task_result "ghost"
    (update_task_statuses
       [("ghost", "failed", PInt 1, PNone); ("ghost", "failed", ok_result, PNone);
        ("t1", "completed", PInt 2, PNone)] one_task)
  = Some ok_result.
Proof.
  apply (update_then_get_task_result (codec := plain_codec)
           [("ghost", "failed", PInt 1, PNone)] [("t1", "completed", PInt 2, PNone)]
           "ghost" "failed" ok_result PNone one_task).
  - apply (bool_decide_unpack _). vm_compute. exact I.
  - reflexivity.
Defined.

Lemma update_failed_is_listed_witness :
  let s' := update_task_statuses [("t1", "failed", PNone, PStr "boom")] one_task in
  ("t1", PStr "boom") ∈ get_failed_tasks s' ∧ ("t1" ∉ get_pending_tasks s').
Proof.
  destruct (update_failed_is_listed (codec := plain_codec)
              [] [] "t1" PNone (PStr "boom") one_task) as (H1 & H2 & _).
  - vm_compute. eexists. reflexivity.
  - apply not_elem_of_nil.
  - reflexivity.
  - split; [exact H1 | exact H2].
Defined.


Section clearing.
Context `{codec : JsonCodec}.
Implicit Types (s : store) (id : string).

(** X8. [clear_tasks] removes the four rows of every id of its list and
    leaves every other id as it was; for ids the store does not know it
    does nothing. *)
Theorem clear_tasks_rows (task_ids : list string) s :
  (∀ id, id ∈ task_ids → record_of id (clear_tasks task_ids s) = no_record)
  ∧ (∀ id, id ∉ task_ids → record_of id (clear_tasks task_ids s) = record_of id s)
  ∧ ((∀ id, id ∈ task_ids → record_of id s = no_record) → clear_tasks task_ids s = s).
Proof.
  split; [|split].
  - intros id Hin. by rewrite record_of_clear_tasks, decide_True.
  - intros id Hin. by rewrite record_of_clear_tasks, decide_False.
  - intros Hnone. apply store_eq. intros id. rewrite record_of_clear_tasks.
    case_decide as Hin; [|done]. symmetry. by apply Hnone.
Qed.

(** X9. What [clear_tasks] does depends only on which ids are listed,
    not on their order or repetition; and when the list holds every id
    that has a row in some table, it leaves the store that [clear]
    leaves. *)
Theorem clear_tasks_set (ids ids' : list string) s :
  ((∀ id, id ∈ ids ↔ id ∈ ids') → clear_tasks ids s = clear_tasks ids' s)
  ∧ ((∀ id, record_of id s ≠ no_record → id ∈ ids) → clear_tasks ids s = clear s).
Proof.
  split.
  - intros Hsame. apply store_eq. intros id. rewrite !record_of_clear_tasks.
    destruct (decide (id ∈ ids)) as [Hin|Hin].
    + by rewrite decide_True by (by apply Hsame).
    + by rewrite decide_False by (by rewrite <- Hsame).
  - intros Hall. apply store_eq. intros id. rewrite record_of_clear_tasks.
    assert (record_of id (clear s) = no_record) as ->.
    { unfold record_of, no_record. simpl. by rewrite !lookup_empty. }
    case_decide as Hin; [done|]. specialize (Hall id).
    unfold record_of, no_record in *.
    destruct (task_definition s !! id), (task_status s !! id),
      (task_result s !! id), (task_error s !! id);
      first [done | destruct Hin; by apply Hall].
Qed.

(** X10. Inserting an id that the store does not know and clearing it
    again gives the store back; and clearing an id and inserting it
    again leaves it pending with the new definition, no result and no
    error, whatever its rows were before. *)
Theorem clear_and_insert id d s :
  (record_of id s = no_record → clear_tasks [id] (store_tasks [(id, d)] s) = s)
  ∧ record_of id (store_tasks [(id, d)] (clear_tasks [id] s))
    = (Some (json_dumps d), Some "pending", None, None).
Proof.
  split.
  - intros Hnone. apply store_eq. intros j. rewrite record_of_clear_tasks.
    case_decide as Hin.
    + apply list_elem_of_singleton in Hin as ->. by rewrite Hnone.
    + apply store_tasks_other. simpl. intros Hj. apply Hin.
      by apply list_elem_of_singleton in Hj as ->; left.
  - pose proof (record_of_clear_tasks [id] s id) as Hrec.
    rewrite decide_True in Hrec by (by left).
    revert Hrec. generalize (clear_tasks [id] s). intros s0 Hrec.
    unfold record_of in *. injection Hrec as Hd Hs Hr He.
    cbn [store_tasks task_definition task_status task_result task_error foldl].
    rewrite !lookup_insert_or_ignore, Hd, Hs, Hr, He.
    by rewrite !decide_True.
Qed.
End clearing.

Lemma clear_tasks_rows_witness :
  record_of "t1" (clear_tasks ["t1"; "t9"] completed_t1) = no_record
  ∧ clear_tasks ["t8"; "t9"] completed_t1 = completed_t1.
Proof.
  destruct (clear_tasks_rows ["t1"; "t9"] completed_t1) as (H1 & _ & _).
  destruct (clear_tasks_rows ["t8"; "t9"] completed_t1) as (_ & _ & H3).
  split.
  - apply H1. left.
  - apply H3. intros id Hin.
    apply elem_of_cons in Hin as [->|Hin]; [vm_compute; reflexivity|].
    apply list_elem_of_singleton in Hin as ->. vm_compute. reflexivity.
Defined.

Lemma clear_tasks_set_witness :
  clear_tasks ["t2"; "t1"; "t2"] completed_t1 = clear_tasks ["t1"; "t2"] completed_t1.
Proof.
  apply (proj1 (clear_tasks_set ["t2"; "t1"; "t2"] ["t1"; "t2"] completed_t1)).
  intros id. rewrite !elem_of_cons, !elem_of_nil. tauto.
Defined.

Lemma clear_and_insert_witness :
  clear_tasks ["t2"] (store_tasks [("t2", PInt 1)] completed_t1) = completed_t1.
Proof.
  apply (proj1 (clear_and_insert "t2" (PInt 1) completed_t1)).
  vm_compute. reflexivity.
Defined.

(** * Further properties of the queries *)

Section reading.
Context `{codec : JsonCodec}.
Implicit Types (s : store) (id : string).

Lemma failed_ids_sublist s :
  (get_failed_tasks s).*1 `sublist_of` (map_to_list (task_status s)).*1.
Proof.
  unfold get_failed_tasks. induction (map_to_list (task_status s)) as [|[k st] l IH];
    [constructor|].
  cbn [omap list_omap fmap list_fmap]. simpl.
  destruct (decide (st = "failed")); [|by constructor].
  destruct (task_error s !! k); simpl; by constructor.
Qed.

Lemma NoDup_failed_ids s : NoDup (get_failed_tasks s).*1.
Proof.
  eapply sublist_NoDup; [|apply failed_ids_sublist]. apply NoDup_fst_map_to_list.
Qed.

(** X11. The three query results have no repeated id and no id in
    common, so the three numbers of the status summary add up to at most
    the number of status rows. *)
Theorem query_lengths_bounded s :
  NoDup (get_pending_tasks s ++ get_completed_tasks s ++ (get_failed_tasks s).*1)
  ∧ (length (get_pending_tasks s) + length (get_completed_tasks s)
     + length (get_failed_tasks s) ≤ size (task_status s))%nat.
Proof.
  assert (NoDup (get_pending_tasks s ++ get_completed_tasks s ++ (get_failed_tasks s).*1))
    as Hnd.
  { apply NoDup_app. split; [apply NoDup_select_status|]. split.
    - intros id Hp%elem_of_get_pending_tasks Hin.
      apply elem_of_app in Hin as [Hc%elem_of_get_completed_tasks|[Hf _]%elem_of_failed_ids];
        congruence.
    - apply NoDup_app. split; [apply NoDup_select_status|]. split; [|apply NoDup_failed_ids].
      intros id Hc%elem_of_get_completed_tasks [Hf _]%elem_of_failed_ids. congruence. }
  split; [exact Hnd|].
  rewrite <- length_map_to_list, <- (length_fmap fst (map_to_list (task_status s))).
  rewrite <- (length_fmap fst (get_failed_tasks s)), <- Nat.add_assoc, <- !length_app.
  apply submseteq_length, NoDup_submseteq; [exact Hnd|].
  intros id Hin.
  assert (is_Some (task_status s !! id)) as [st Hst].
  { apply elem_of_app in Hin as [Hp%elem_of_get_pending_tasks|Hin]; [by eexists|].
    apply elem_of_app in Hin as [Hc%elem_of_get_completed_tasks|[Hf _]%elem_of_failed_ids];
      by eexists. }
  apply list_elem_of_fmap. exists (id, st). split; [done|]. by apply elem_of_map_to_list.
Qed.

(** X12. In every store reached from the empty one by calls of
    [store_tasks], [update_task_statuses], [clear] and [clear_tasks], the
    definitions and the statuses that [dump_all] returns have the same
    ids. *)
Theorem dump_all_definitions_statuses (ops : list op) :
  dom (task_definitions (dump_all (run_ops ops setup_db)))
  = dom (task_statuses (dump_all (run_ops ops setup_db))).
Proof.
  cbn [dump_all task_definitions task_statuses]. rewrite dom_fmap_L.
  apply set_eq. intros id. rewrite !elem_of_dom. apply paired_run_ops.
Qed.

(** X13. [dump_all] agrees with the other readers: its results are what
    [get_task_result] returns, its statuses are what [get_task_status]
    returns and decide the pending and completed queries, and
    [get_failed_tasks] returns exactly the ids whose dumped status is
    ['failed'] and that have a dumped error, with that error. *)
Theorem dump_all_agrees s id :
  task_results (dump_all s) !! id = get_task_result id s
  ∧ (∀ status, get_task_status id s = inr status
               ↔ task_statuses (dump_all s) !! id = Some status)
  ∧ (id ∈ get_pending_tasks s ↔ task_statuses (dump_all s) !! id = Some "pending")
  ∧ (id ∈ get_completed_tasks s ↔ task_statuses (dump_all s) !! id = Some "completed")
  ∧ (∀ e, (id, e) ∈ get_failed_tasks s
          ↔ task_statuses (dump_all s) !! id = Some "failed"
            ∧ task_errors (dump_all s) !! id = Some e).
Proof.
  cbn [dump_all task_results task_statuses task_errors].
  split; [|split; [|split; [|split]]].
  - rewrite lookup_fmap. unfold get_task_result. by destruct (task_result s !! id).
  - intros status. unfold get_task_status.
    destruct (task_status s !! id); split; intros H; congruence.
  - apply elem_of_get_pending_tasks.
  - apply elem_of_get_completed_tasks.
  - intros e. rewrite elem_of_get_failed_tasks, lookup_fmap, fmap_Some.
    split; intros [Hst [e0 [He ->]]]; eauto.
Qed.
End reading.

(** * Further properties of [run] *)

Section run_cases.
Context `{codec : JsonCodec}.
Implicit Types (t : task) (ex : executor) (mem : store) (id : string).

Lemma tasks_to_run_nil ex :
  (∀ t, t ∈ tasks ex → task_status (memory ex) !! get_id t ≠ Some "pending") →
  tasks_to_run ex = [].
Proof.
  intros Hnone. destruct (tasks_to_run ex) as [|t0 l] eqn:Hto; [done|].
  assert (t0 ∈ tasks_to_run ex) as [Hp Hin]%elem_of_tasks_to_run by (rewrite Hto; left).
  by destruct (Hnone t0 Hin).
Qed.



(** No write of the loop makes an id pending, and the id of a task
    whose completion is written is not pending afterwards. *)
Lemma recorded_pending stopped t mem id :
  escapes stopped t = false →
  task_status (recorded stopped t mem) !! id = Some "pending" →
  task_status mem !! id = Some "pending" ∧ get_id t ≠ id.
Proof.
  unfold escapes. rewrite recorded_written. unfold written.
  destruct (execute_task stopped t) as [r|m|m]; [| |done]; intros _.
  - destruct (if truthy r then json_refuses r else None);
      rewrite update_one_status; (case_decide as Heq; [|done]);
      destruct (task_status mem !! id); done.
  - rewrite update_one_status; (case_decide as Heq; [|done]);
      destruct (task_status mem !! id); done.
Qed.

Lemma fold_recorded_pending stopped (l : list task) mem id :
  (∀ t, t ∈ l → escapes stopped t = false) →
  task_status (foldl (λ mem t, recorded stopped t mem) mem l) !! id = Some "pending" →
  task_status mem !! id = Some "pending" ∧ id ∉ get_id <$> l.
Proof.
  revert mem. induction l as [|t l IH]; intros mem Hall Hp.
  - split; [done | apply not_elem_of_nil].
  - cbn [foldl] in Hp. apply IH in Hp as [Hp Hl]; [|intros u Hu; apply Hall; by right].
    apply recorded_pending in Hp as [Hp Hne]; [|apply Hall; left].
    split; [done|]. rewrite fmap_cons. apply not_elem_of_cons. by split.
Qed.

(** The loop keeps the definitions and the ids of the status rows. *)
Lemma fold_recorded_tables stopped (l : list task) mem :
  task_definition (foldl (λ mem t, recorded stopped t mem) mem l) = task_definition mem
  ∧ dom (task_status (foldl (λ mem t, recorded stopped t mem) mem l))
    = dom (task_status mem).
Proof.
  revert mem. induction l as [|t l IH]; intros mem; [done|].
  cbn [foldl]. destruct (IH (recorded stopped t mem)) as [-> ->].
  rewrite recorded_written. destruct (written stopped t) as [[[[k st] r] e]|]; [|done].
  split; [done|]. apply set_eq; intros id. rewrite !elem_of_dom, update_one_status.
  case_decide; by rewrite ?fmap_is_Some.
Qed.

Lemma submitted_ids_app (l1 l2 : list event) :
  submitted_ids (l1 ++ l2) = (submitted_ids l1 ++ submitted_ids l2)%list.
Proof. apply omap_app. Qed.

Lemma printed_lines_app (l1 l2 : list event) :
  printed_lines (l1 ++ l2) = (printed_lines l1 ++ printed_lines l2)%list.
Proof. apply omap_app. Qed.

Lemma submitted_ids_submitted (l : list task) :
  submitted_ids (Submitted ∘ get_id <$> l) = get_id <$> l.
Proof. induction l as [|t l IH]; [done|]. simpl. f_equal. exact IH. Qed.

Lemma printed_lines_submitted (l : list task) :
  printed_lines (Submitted ∘ get_id <$> l) = [].
Proof. by induction l. Qed.

Lemma submitted_ids_printed (l : list string) : submitted_ids (Printed <$> l) = [].
Proof. by induction l. Qed.

Lemma printed_lines_printed (l : list string) : printed_lines (Printed <$> l) = l.
Proof. induction l as [|x l IH]; [done|]. simpl. f_equal. exact IH. Qed.

(** What a run that had tasks to run and returned has submitted and
    printed. *)
Lemma run_returned_lines sched ex ex' events :
  tasks_to_run ex ≠ [] →
  run sched ex = inr (ex', events) →
  submitted_ids events = get_id <$> tasks_to_run ex
  ∧ printed_lines events
    = ((if stop_fires (stop_all_when ex) 0 (length (tasks_to_run ex))
        then ["Emergency stop condition met. Halting execution."] else [])
       ++ status_summary (memory ex'))%list.
Proof.
  intros Hto Hrun. destruct (run_returned sched ex ex' events Hto Hrun) as (_ & -> & _).
  split.
  - change (submitted_ids (PoolCreated ?m :: ?l)) with (submitted_ids l).
    rewrite !submitted_ids_app, submitted_ids_submitted, submitted_ids_printed.
    destruct (stop_fires _ _ _); simpl; by rewrite app_nil_r.
  - change (printed_lines (PoolCreated ?m :: ?l)) with (printed_lines l).
    rewrite !printed_lines_app, printed_lines_submitted, printed_lines_printed.
    by destruct (stop_fires _ _ _).
Qed.

End run_cases.

Section run_events.
Context `{codec : JsonCodec}.
Implicit Types (t : task) (ex : executor) (mem : store) (id : string).

(** X14. [run] submits exactly the tasks whose id is pending when it
    starts, in the order of the task list: completed and failed tasks
    are never submitted again. *)
Theorem run_submits_pending sched ex ex' events :
  run sched ex = inr (ex', events) →
  submitted_ids events = get_id <$> tasks_to_run ex
  ∧ submitted_ids events `sublist_of` (get_id <$> tasks ex)
  ∧ ∀ id, id ∈ submitted_ids events → task_status (memory ex) !! id = Some "pending".
Proof.
  intros Hrun.
  assert (submitted_ids events = get_id <$> tasks_to_run ex) as Hsub.
  { destruct (decide (tasks_to_run ex = [])) as [Hnil|Hto].
    - rewrite run_nil in Hrun by done. injection Hrun as _ <-. by rewrite Hnil.
    - by destruct (run_returned_lines sched ex ex' events Hto Hrun) as [? _]. }
  split; [exact Hsub|]. rewrite Hsub. split.
  - unfold tasks_to_run. apply fmap_sublist, (sublist_filter (λ t, get_id t ∈ _)).
  - intros id [t [-> Hin]]%list_elem_of_fmap.
    by apply elem_of_tasks_to_run in Hin as [? _].
Qed.




(** X18. After a [run] without a stop condition none of the executor's
    tasks is pending, so a second [run] on the executor it leaves only
    reports that all tasks are completed and changes nothing. *)
Theorem run_then_run sched sched' ex ex' events :
  stop_all_when ex = None →
  run sched ex = inr (ex', events) →
  (∀ t, t ∈ tasks ex → get_id t ∉ get_pending_tasks (memory ex'))
  ∧ run sched' ex' = inr (ex', [Printed "All tasks are already completed."]).
Proof.
  intros Hstop Hrun.
  assert (tasks ex' = tasks ex
          ∧ ∀ t, t ∈ tasks ex → task_status (memory ex') !! get_id t ≠ Some "pending")
    as [Htasks Hnone].
  { destruct (decide (tasks_to_run ex = [])) as [Hnil|Hto].
    - rewrite run_nil in Hrun by done. injection Hrun as <- _. split; [done|].
      intros t Hin Hp.
      assert (t ∈ tasks_to_run ex) as Ht by (by apply elem_of_tasks_to_run).
      rewrite Hnil in Ht. by apply elem_of_nil in Ht.
    - destruct (run_returned sched ex ex' events Hto Hrun)
        as (_ & _ & _ & Htasks & Hmem & Hesc).
      split; [done|]. intros t Hin Hp. rewrite Hstop in Hmem, Hesc.
      pose proof (harvested_all _ _ _ Hesc) as Hall. rewrite Hall in Hmem, Hesc.
      rewrite Hmem in Hp. apply fold_recorded_pending in Hp as [Hp Hl]; [|exact Hesc].
      apply Hl. apply list_elem_of_fmap_2. rewrite as_completed_Permutation.
      by apply elem_of_tasks_to_run. }
  split.
  - intros t Hin Hp%elem_of_get_pending_tasks. by apply (Hnone t).
  - apply run_nil, tasks_to_run_nil. rewrite Htasks. exact Hnone.
Qed.

(** X19. When the tasks have distinct ids and, in the store [run] starts
    from, every stored result belongs to a completed id and every stored
    error to a failed one, the same holds in the store [run] leaves; in
    particular no id then has both a result and an error. *)
Theorem run_keeps_lifecycle sched ex ex' events :
  NoDup (get_id <$> tasks ex) →
  lifecycle_inv (memory ex) →
  run sched ex = inr (ex', events) →
  lifecycle_inv (memory ex')
  ∧ ∀ id, ¬ (is_Some (task_result (memory ex') !! id)
             ∧ is_Some (task_error (memory ex') !! id)).
Proof.
  intros Hnd Hinv Hrun.
  pose proof (run_lifecycle_inv sched ex ex' events Hnd Hinv Hrun) as Hinv'.
  split; [exact Hinv'|]. intros id [Hr He].
  destruct (Hinv' id) as [H1 H2]. specialize (H1 Hr). specialize (H2 He). congruence.
Qed.

(** X20. [run] never inserts or removes a task: it keeps the task list,
    the definitions and the ids that have a status row, and it leaves
    the four rows of every id that is not the id of a submitted task as
    they were. *)
Theorem run_frame sched ex ex' events :
  run sched ex = inr (ex', events) →
  tasks ex' = tasks ex
  ∧ task_definition (memory ex') = task_definition (memory ex)
  ∧ dom (task_status (memory ex')) = dom (task_status (memory ex))
  ∧ ∀ id, id ∉ get_id <$> tasks_to_run ex →
      record_of id (memory ex') = record_of id (memory ex).
Proof.
  intros Hrun. destruct (decide (tasks_to_run ex = [])) as [Hnil|Hto].
  - rewrite run_nil in Hrun by done. by injection Hrun as <- _.
  - destruct (run_returned sched ex ex' events Hto Hrun)
      as (_ & _ & _ & Htasks & Hmem & _).
    rewrite Hmem. split; [done|].
    destruct (fold_recorded_tables (_stopped ex)
                (harvested (stop_all_when ex) (_stopped ex) 0
                           (as_completed sched (tasks_to_run ex)))
                (memory ex)) as [Hd Hdom].
    split; [done|]. split; [done|]. intros id Hid.
    apply fold_recorded_other. intros [t [-> Hin]]%list_elem_of_fmap.
    apply Hid. by apply list_elem_of_fmap_2, harvested_elem_of with sched.
Qed.

(** X21. When [run] has tasks to run, the stop condition is evaluated
    once after each completion; if it holds at one of these evaluations,
    [run] prints the stop line before the summary and leaves [_stopped]
    set, and otherwise it prints the summary only and leaves [_stopped]
    as it was. *)
Theorem run_stop_flag sched ex ex' events :
  tasks_to_run ex ≠ [] →
  run sched ex = inr (ex', events) →
  let fired := stop_fires (stop_all_when ex) 0 (length (tasks_to_run ex)) in
  _stopped ex' = _stopped ex || fired
  ∧ printed_lines events
    = ((if fired then ["Emergency stop condition met. Halting execution."] else [])
       ++ status_summary (memory ex'))%list.
Proof.
  intros Hto Hrun fired.
  destruct (run_returned sched ex ex' events Hto Hrun) as (_ & _ & Hflag & _).
  by destruct (run_returned_lines sched ex ex' events Hto Hrun) as [_ Hlines].
Qed.
End run_events.


Lemma run_submits_pending_witness :
  ∃ ex' events,
    run [2; 0] three_tasks = inr (ex', events)
    ∧ submitted_ids events = ["t1"; "t2"; "t3"].
Proof.
  pose proof (run_result_inr (run [2; 0] three_tasks)) as Hrun. revert Hrun.
  generalize (run_executor (run [2; 0] three_tasks)) (run_events (run [2; 0] three_tasks)).
  intros ex' events Hrun. specialize (Hrun ltac:(vm_compute; reflexivity)).
  exists ex', events. split; [exact Hrun|].
  etransitivity; [exact (proj1 (run_submits_pending [2; 0] three_tasks ex' events Hrun))|].
  vm_compute. reflexivity.
Defined.




Lemma run_then_run_witness :
  ∃ ex' events,
    run [2; 0] three_tasks = inr (ex', events)
    ∧ run [1] ex' = inr (ex', [Printed "All tasks are already completed."]).
Proof.
  pose proof (run_result_inr (run [2; 0] three_tasks)) as Hrun. revert Hrun.
  generalize (run_executor (run [2; 0] three_tasks)) (run_events (run [2; 0] three_tasks)).
  intros ex' events Hrun. specialize (Hrun ltac:(vm_compute; reflexivity)).
  exists ex', events. split; [exact Hrun|].
  exact (proj2 (run_then_run [2; 0] [1] three_tasks ex' events eq_refl Hrun)).
Defined.

Lemma run_keeps_lifecycle_witness :
  ∃ ex' events,
    run [2; 0] three_tasks = inr (ex', events)
    ∧ lifecycle_inv (memory ex').
Proof.
  pose proof (run_result_inr (run [2; 0] three_tasks)) as Hrun. revert Hrun.
  generalize (run_executor (run [2; 0] three_tasks)) (run_events (run [2; 0] three_tasks)).
  intros ex' events Hrun. specialize (Hrun ltac:(vm_compute; reflexivity)).
  exists ex', events. split; [exact Hrun|].
  refine (proj1 (run_keeps_lifecycle [2; 0] three_tasks ex' events _ _ Hrun)).
  - apply (bool_decide_unpack _). vm_compute. exact I.
  - apply lifecycle_inv_store_tasks, lifecycle_inv_setup_db.
Defined.

Lemma run_frame_witness :
  ∃ ex' events,
    run [2; 0] three_tasks = inr (ex', events)
    ∧ task_definition (memory ex') = task_definition (memory three_tasks).
Proof.
  pose proof (run_result_inr (run [2; 0] three_tasks)) as Hrun. revert Hrun.
  generalize (run_executor (run [2; 0] three_tasks)) (run_events (run [2; 0] three_tasks)).
  intros ex' events Hrun. specialize (Hrun ltac:(vm_compute; reflexivity)).
  exists ex', events. split; [exact Hrun|].
  exact (proj1 (proj2 (run_frame [2; 0] three_tasks ex' events Hrun))).
Defined.

Lemma run_stop_flag_witness :
  ∃ ex' events,
    run [] stops_early = inr (ex', events)
    ∧ _stopped ex' = true
    ∧ printed_lines events
      = ("Emergency stop condition met. Halting execution."
         :: status_summary (memory ex')).
Proof.
  pose proof (run_result_inr (run [] stops_early)) as Hrun. revert Hrun.
  generalize (run_executor (run [] stops_early)) (run_events (run [] stops_early)).
  intros ex' events Hrun. specialize (Hrun ltac:(vm_compute; reflexivity)).
  exists ex', events. split; [exact Hrun|].
  assert (tasks_to_run stops_early ≠ []) as Hto by (vm_compute; discriminate).
  exact (run_stop_flag [] stops_early ex' events Hto Hrun).
Defined.
